(** * OpenSCAD fast-CSG corefinement driver ([src/cgalutils-corefine.cc])

    A shallow embedding of the three corefinement drivers
    [corefineAndComputeUnion], [corefineAndComputeIntersection] and
    [corefineAndComputeDifference], and of the [ExactLazyNumbersVisitor]
    they install, together with the properties the design document states
    about them.

    The geometry kernel (CGAL's lazy exact numbers, surface meshes and the
    corefinement engine of Polygon_mesh_processing) is an external
    collaborator: only the part of its interface that the file above calls
    is modelled, and the engine itself stays a parameter. *)

From Stdlib Require Import QArith.
From Stdlib Require Import Ascii String Sorted.
From stdpp Require Import base option list gmap strings.

Open Scope N_scope.

(** ** The kernel's lazy exact numbers

    A coordinate is either a cached exact rational or a deferred expression
    over other lazy numbers.  [CGAL_exact] is [CGAL::exact]: it evaluates
    the expression, caches the value and drops the expression. *)

Inductive Lazy_exact_nt : Type :=
| Lazy_exact_Cst (q : Q)
| Lazy_exact_Opp (a : Lazy_exact_nt)
| Lazy_exact_Add (a b : Lazy_exact_nt)
| Lazy_exact_Sub (a b : Lazy_exact_nt)
| Lazy_exact_Mul (a b : Lazy_exact_nt).

Fixpoint exact_value (n : Lazy_exact_nt) : Q :=
  match n with
  | Lazy_exact_Cst q => q
  | Lazy_exact_Opp a => Qopp (exact_value a)
  | Lazy_exact_Add a b => Qplus (exact_value a) (exact_value b)
  | Lazy_exact_Sub a b => Qminus (exact_value a) (exact_value b)
  | Lazy_exact_Mul a b => Qmult (exact_value a) (exact_value b)
  end.

(** Height of the pending expression; [0] for a number that is exact. *)
Fixpoint depth (n : Lazy_exact_nt) : nat :=
  match n with
  | Lazy_exact_Cst _ => 0%nat
  | Lazy_exact_Opp a => S (depth a)
  | Lazy_exact_Add a b
  | Lazy_exact_Sub a b
  | Lazy_exact_Mul a b => S (Nat.max (depth a) (depth b))
  end.

Definition is_lazy (n : Lazy_exact_nt) : bool :=
  match n with
  | Lazy_exact_Cst _ => false
  | _ => true
  end.

Definition CGAL_exact (n : Lazy_exact_nt) : Lazy_exact_nt :=
  Lazy_exact_Cst (exact_value n).

(** ** Points and meshes *)

Record Point_3 : Type := mkPoint_3 {
  x : Lazy_exact_nt;
  y : Lazy_exact_nt;
  z : Lazy_exact_nt
}.

Definition vertex_descriptor : Type := N.
Definition face_descriptor : Type := N.

(** A mesh as the visitors see it: the point stored at each vertex and the
    vertices met when walking around each face. *)
Record TriangleMesh : Type := mkMesh {
  vpoint : gmap N Point_3;
  fverts : gmap N (list N)
}.

(** [tm.point(v)] *)
Definition point (tm : TriangleMesh) (v : vertex_descriptor) : option Point_3 :=
  vpoint tm !! v.

(** [vertices_around_face(mesh.halfedge(fi), mesh)] *)
Definition vertices_around_face (fi : face_descriptor) (mesh : TriangleMesh)
  : list vertex_descriptor :=
  default [] (fverts mesh !! fi).

(** The source reaches a point by reference ([auto& pt = tm.point(v)]) and
    calls [CGAL::exact] on one coordinate of it: the stored point changes
    representation in place.  A descriptor with no point stores nothing.
    Each vertex has an expression tree of its own here, whereas the kernel
    may share one representation between handles, so that forcing one
    vertex can only make more coordinates exact than this shows: what is
    proved below of exactness, values and depths carries over; that some
    other coordinate is left pending does not. *)
Definition update_point (f : Point_3 -> Point_3) (v : vertex_descriptor)
    (tm : TriangleMesh) : TriangleMesh :=
  {| vpoint := alter f v (vpoint tm); fverts := fverts tm |}.

Definition exact_x (pt : Point_3) : Point_3 :=
  {| x := CGAL_exact (x pt); y := y pt; z := z pt |}.
Definition exact_y (pt : Point_3) : Point_3 :=
  {| x := x pt; y := CGAL_exact (y pt); z := z pt |}.
Definition exact_z (pt : Point_3) : Point_3 :=
  {| x := x pt; y := y pt; z := CGAL_exact (z pt) |}.

(** Introspection used by the properties below. *)
Definition point_depth (pt : Point_3) : nat :=
  Nat.max (depth (x pt)) (Nat.max (depth (y pt)) (depth (z pt))).

Definition point_is_exact (pt : Point_3) : bool :=
  negb (is_lazy (x pt)) && negb (is_lazy (y pt)) && negb (is_lazy (z pt)).

Definition point_value (pt : Point_3) : Q * Q * Q :=
  (exact_value (x pt), exact_value (y pt), exact_value (z pt)).

#[global] Instance Q_eq_dec : EqDecision Q.
Proof. solve_decision. Defined.

#[global] Instance Lazy_exact_nt_eq_dec : EqDecision Lazy_exact_nt.
Proof. solve_decision. Defined.




(** The vertex carries a point and none of its coordinates is pending. *)
Definition vertex_is_exact (tm : TriangleMesh) (v : vertex_descriptor) : bool :=
  match point tm v with
  | Some pt => point_is_exact pt
  | None => false
  end.

(** ** Build configuration

    The two preprocessor conditions of the file.  [CGAL_VERSION_NUMBER] is
    the kernel's macro of that name.  [ExactLazyNumbersVisitor] is compiled
    only where [FAST_CSG_KERNEL_IS_LAZY] holds; what is said of it below is
    said of such builds. *)

Record BuildConfig : Type := mkBuild {
  CGAL_VERSION_NR : N;
  FAST_CSG_KERNEL_IS_LAZY : bool
}.

Definition CGAL_VERSION_NUMBER (major minor patch : N) : N :=
  (1000001 + 10000 * major + 100 * minor + 10 * patch) * 1000.

(** [#if CGAL_VERSION_NR >= CGAL_VERSION_NUMBER(5, 4, 0)] *)
Definition has_new_vertex_added (cfg : BuildConfig) : bool :=
  CGAL_VERSION_NUMBER 5 4 0 <=? CGAL_VERSION_NR cfg.

(** ** The corefinement visitor interface

    [PMP::Corefinement::Default_visitor]: the callbacks the engine invokes
    while it splits faces.  A callback receives the visitor and the mesh by
    reference, so it maps the pair to the pair. *)

Module Corefinement.

Record Visitor : Type := mkVisitor {
  vstate : Type;
  new_vertex_added :
    N -> vertex_descriptor -> vstate * TriangleMesh -> vstate * TriangleMesh;
  before_subface_creations :
    face_descriptor -> vstate * TriangleMesh -> vstate * TriangleMesh;
  after_subface_created :
    face_descriptor -> vstate * TriangleMesh -> vstate * TriangleMesh;
  after_subface_creations :
    vstate * TriangleMesh -> vstate * TriangleMesh
}.

(** Every callback of the default visitor is empty. *)
Definition Default_visitor : Visitor :=
  {| vstate := unit;
     new_vertex_added := fun _ _ st => st;
     before_subface_creations := fun _ st => st;
     after_subface_created := fun _ st => st;
     after_subface_creations := fun st => st |}.

End Corefinement.

(** ** [ExactLazyNumbersVisitor] *)

Module ExactLazyNumbersVisitor.

(** *** Kernel 5.4.0 and later: one callback per new vertex *)

Definition new_vertex_added (i_id : N) (v : vertex_descriptor)
    (tm : TriangleMesh) : TriangleMesh :=
  let tm := update_point exact_x v tm in
  let tm := update_point exact_y v tm in
  update_point exact_z v tm.

(** *** Older kernels: the three-phase callbacks *)

Record fields : Type := mkFields {
  split_face : option face_descriptor;
  created_faces : list face_descriptor
}.

(** A default-constructed visitor: a null face and an empty vector. *)
Definition init : fields :=
  {| split_face := None; created_faces := [] |}.

Definition before_subface_creations (f_split : face_descriptor)
    (st : fields * TriangleMesh) : fields * TriangleMesh :=
  let '(this, tm) := st in
  ({| split_face := Some f_split; created_faces := [] |}, tm).

(** The inner loop: the three [CGAL::exact] calls on each vertex met
    around one face. *)
Fixpoint exact_vertices (vs : list vertex_descriptor) (mesh : TriangleMesh)
  : TriangleMesh :=
  match vs with
  | [] => mesh
  | vbegin :: vs' =>
      let mesh := update_point exact_x vbegin mesh in
      let mesh := update_point exact_y vbegin mesh in
      let mesh := update_point exact_z vbegin mesh in
      exact_vertices vs' mesh
  end.

(** The outer loop over [created_faces]; the vertices of a face are read
    from the mesh when its turn comes. *)
Fixpoint exact_faces (fs : list face_descriptor) (mesh : TriangleMesh)
  : TriangleMesh :=
  match fs with
  | [] => mesh
  | fi :: fs' =>
      exact_faces fs' (exact_vertices (vertices_around_face fi mesh) mesh)
  end.

Definition after_subface_creations (st : fields * TriangleMesh)
  : fields * TriangleMesh :=
  let '(this, mesh) := st in
  let mesh := exact_faces (created_faces this) mesh in
  ({| split_face := split_face this; created_faces := [] |}, mesh).

Definition after_subface_created (fi : face_descriptor)
    (st : fields * TriangleMesh) : fields * TriangleMesh :=
  let '(this, tm) := st in
  ({| split_face := split_face this;
      created_faces := created_faces this ++ [fi] |}, tm).

(** *** The visitor as compiled

    The preprocessor keeps one of the two bodies; what it drops falls
    back to the (empty) callbacks inherited from the default visitor.
    Which of the two a build holds is decided where the visitor is handed
    to the engine, in [visit_exact] below. *)

Definition shape_new_vertex : Corefinement.Visitor :=
  {| Corefinement.vstate := unit;
     Corefinement.new_vertex_added :=
       fun i_id v st => (fst st, new_vertex_added i_id v (snd st));
     Corefinement.before_subface_creations := fun _ st => st;
     Corefinement.after_subface_created := fun _ st => st;
     Corefinement.after_subface_creations := fun st => st |}.

Definition shape_three_phase : Corefinement.Visitor :=
  {| Corefinement.vstate := fields;
     Corefinement.new_vertex_added := fun _ _ st => st;
     Corefinement.before_subface_creations := before_subface_creations;
     Corefinement.after_subface_created := after_subface_created;
     Corefinement.after_subface_creations := after_subface_creations |}.

End ExactLazyNumbersVisitor.

(** ** The engine's split-event protocol

    The corefinement engine is external.  What the visitors can observe of
    it is a sequence of steps on the mesh being refined: it stores a new
    vertex, opens the split of a face, creates a sub-face, closes the
    split; after each step it calls the matching callback of the attached
    visitor.  Kernels older than 5.4.0 have no [new_vertex_added]
    callback to call. *)

Module Engine.

Inductive step : Type :=
| add_vertex (i_id : N) (v : vertex_descriptor) (pt : Point_3)
| begin_split (f_split : face_descriptor)
| add_subface (fi : face_descriptor) (vs : list vertex_descriptor)
| end_split.

Definition insert_vertex (v : vertex_descriptor) (pt : Point_3)
    (tm : TriangleMesh) : TriangleMesh :=
  {| vpoint := <[v := pt]> (vpoint tm); fverts := fverts tm |}.

Definition insert_face (fi : face_descriptor) (vs : list vertex_descriptor)
    (tm : TriangleMesh) : TriangleMesh :=
  {| vpoint := vpoint tm; fverts := <[fi := vs]> (fverts tm) |}.

Definition notify (cfg : BuildConfig) (V : Corefinement.Visitor) (s : step)
    (st : Corefinement.vstate V * TriangleMesh)
  : Corefinement.vstate V * TriangleMesh :=
  match s with
  | add_vertex i_id v pt =>
      let st := (fst st, insert_vertex v pt (snd st)) in
      if has_new_vertex_added cfg
      then Corefinement.new_vertex_added V i_id v st
      else st
  | begin_split f_split => Corefinement.before_subface_creations V f_split st
  | add_subface fi vs =>
      Corefinement.after_subface_created V fi
        (fst st, insert_face fi vs (snd st))
  | end_split => Corefinement.after_subface_creations V st
  end.

Fixpoint run (cfg : BuildConfig) (V : Corefinement.Visitor)
    (script : list step) (st : Corefinement.vstate V * TriangleMesh)
  : Corefinement.vstate V * TriangleMesh :=
  match script with
  | [] => st
  | s :: script' => run cfg V script' (notify cfg V s st)
  end.



(** The vertices a stretch of steps stores. *)
Fixpoint new_vertices (script : list step) : list vertex_descriptor :=
  match script with
  | [] => []
  | add_vertex _ v _ :: script' => v :: new_vertices script'
  | _ :: script' => new_vertices script'
  end.

(** What a step does to the mesh, callbacks left aside. *)
Definition edit (s : step) (tm : TriangleMesh) : TriangleMesh :=
  match s with
  | add_vertex _ v pt => insert_vertex v pt tm
  | add_subface fi vs => insert_face fi vs tm
  | begin_split _ | end_split => tm
  end.

Fixpoint edits (script : list step) (tm : TriangleMesh) : TriangleMesh :=
  match script with
  | [] => tm
  | s :: script' => edits script' (edit s tm)
  end.

End Engine.

(** ** The drivers

    A driver is a short program over three kinds of calls: a read of a
    feature toggle, one of the engine's three entry points with its named
    parameters, and the coordinator's [remeshSplitFaces].  Programs are
    trees of such calls, so that what a driver asks for, and in which
    order, can be stated apart from what the callees do. *)

Inductive Feature : Type :=
| ExperimentalFastCsgRemesh
| ExperimentalFastCsgExactCorefinementCallback.

Inductive Operation : Type := Union | Intersection | Difference.

(** The visitor wrapped by [PMP::parameters::visitor(...)]:
    [ExactLazyNumbersVisitor<TriangleMesh>()], or
    [CorefinementVisitor<TriangleMesh> visitor(lhs, rhs, out, exactCallback)]. *)
Inductive visitor_param : Type :=
| ExactLazyNumbersVisitor_param
| CorefinementVisitor_param (exactCallback : bool).

Inductive call : Type -> Type :=
| is_enabled (f : Feature) : call bool
| corefine_and_compute (op : Operation) (params : list visitor_param) : call bool
| remeshSplitFaces (visitor : visitor_param) : call unit.

Inductive Prog (A : Type) : Type :=
| Ret (a : A)
| Do {X : Type} (c : call X) (k : X -> Prog A).

Arguments Ret {A} a.
Arguments Do {A X} c k.


Definition corefineAndComputeUnion : Prog bool :=
  Do (is_enabled ExperimentalFastCsgRemesh) (fun remesh =>
  Do (is_enabled ExperimentalFastCsgExactCorefinementCallback) (fun exactCallback =>
  if exactCallback && negb remesh then
    let param := ExactLazyNumbersVisitor_param in
    Do (corefine_and_compute Union [param; param]) (fun result =>
    Ret result)
  else if remesh then
    let visitor := CorefinementVisitor_param exactCallback in
    let param := visitor in
    Do (corefine_and_compute Union [param; param; param]) (fun result =>
    Do (remeshSplitFaces visitor) (fun _ =>
    Ret result))
  else
    Do (corefine_and_compute Union []) (fun result =>
    Ret result))).

Definition corefineAndComputeIntersection : Prog bool :=
  Do (is_enabled ExperimentalFastCsgRemesh) (fun remesh =>
  Do (is_enabled ExperimentalFastCsgExactCorefinementCallback) (fun exactCallback =>
  if exactCallback && negb remesh then
    let param := ExactLazyNumbersVisitor_param in
    Do (corefine_and_compute Intersection [param; param]) (fun result =>
    Ret result)
  else if remesh then
    let visitor := CorefinementVisitor_param exactCallback in
    let param := visitor in
    Do (corefine_and_compute Intersection [param; param; param]) (fun result =>
    Do (remeshSplitFaces visitor) (fun _ =>
    Ret result))
  else
    Do (corefine_and_compute Intersection []) (fun result =>
    Ret result))).

Definition corefineAndComputeDifference : Prog bool :=
  Do (is_enabled ExperimentalFastCsgRemesh) (fun remesh =>
  Do (is_enabled ExperimentalFastCsgExactCorefinementCallback) (fun exactCallback =>
  if exactCallback && negb remesh then
    let param := ExactLazyNumbersVisitor_param in
    Do (corefine_and_compute Difference [param; param]) (fun result =>
    Ret result)
  else if remesh then
    let visitor := CorefinementVisitor_param exactCallback in
    let param := visitor in
    Do (corefine_and_compute Difference [param; param; param]) (fun result =>
    Do (remeshSplitFaces visitor) (fun _ =>
    Ret result))
  else
    Do (corefine_and_compute Difference []) (fun result =>
    Ret result))).

(** The driver for an operation. *)
Definition driver (op : Operation) : Prog bool :=
  match op with
  | Union => corefineAndComputeUnion
  | Intersection => corefineAndComputeIntersection
  | Difference => corefineAndComputeDifference
  end.

(** *** Running a driver

    The callees are parameters: a world [W] holds whatever they touch (the
    process-wide feature table, the three meshes, the coordinator), the
    feature table is read from the world as it is at the time of the read,
    and the engine and the remesh pass may change the world at will, the
    feature table included.  The remesh pass also says whether it
    re-triangulated every region; the call statement in the drivers drops
    that, so it reaches the log and never the program. *)

Inductive event : Type :=
| ev_is_enabled (f : Feature) (b : bool)
| ev_corefine (op : Operation) (params : list visitor_param) (result : bool)
| ev_remeshSplitFaces (visitor : visitor_param) (complete : bool).

Record Callees (W : Type) : Type := mkCallees {
  feature_enabled : Feature -> W -> bool;
  engine : Operation -> list visitor_param -> W -> bool * W;
  remesh : visitor_param -> W -> bool * W
}.

Arguments feature_enabled {W} _ _ _.
Arguments engine {W} _ _ _ _.
Arguments remesh {W} _ _ _.

Record Outcome (W A : Type) : Type := mkOutcome {
  returned : A;
  world : W;
  log : list event
}.

Arguments mkOutcome {W A} _ _ _.
Arguments returned {W A} _.
Arguments world {W A} _.
Arguments log {W A} _.

Definition perform {W X : Type} (cs : Callees W) (c : call X) (w : W)
  : X * W * event :=
  match c in call X return X * W * event with
  | is_enabled f =>
      let b := feature_enabled cs f w in (b, w, ev_is_enabled f b)
  | corefine_and_compute op params =>
      let '(result, w') := engine cs op params w in
      (result, w', ev_corefine op params result)
  | remeshSplitFaces visitor =>
      let '(complete, w') := remesh cs visitor w in
      (tt, w', ev_remeshSplitFaces visitor complete)
  end.

Fixpoint exec {W A : Type} (cs : Callees W) (p : Prog A) (w : W)
    (past : list event) : Outcome W A :=
  match p with
  | Ret a => mkOutcome a w past
  | Do c k =>
      let '(r, w', e) := perform cs c w in
      exec cs (k r) w' (past ++ [e])
  end.

Definition run {W A : Type} (cs : Callees W) (p : Prog A) (w : W) : Outcome W A :=
  exec cs p w [].

(** ** [CorefinementVisitor] and its remesh pass *)

Module CorefinementVisitor.

(** Modelled from the spec: [cgalutils-corefinement-visitor.h], which
    declares [CorefinementVisitor] and [remeshSplitFaces], is not among
    the sources.  Section 4.3 of the design document gives the
    coordinator the three-phase callbacks: it records, for each original
    face that is split, the faces created from it; when the split ends
    the list is filed under that face and the accumulation buffer is
    cleared; if so constructed it also forces exactness on the vertices
    of the faces it saw. *)
Record fields : Type := mkFields {
  exactCallback : bool;
  split_face : option face_descriptor;
  created_faces : list face_descriptor;
  regions : list (face_descriptor * list face_descriptor)
}.

(** Modelled from the spec: the constructor (not among the sources), as
    the drivers call it; the two input meshes and the output mesh it also
    receives are left out, the coordinator being handed each mesh again
    with every callback. *)
Definition construct (exactCallback : bool) : fields :=
  {| exactCallback := exactCallback; split_face := None;
     created_faces := []; regions := [] |}.

(** Modelled from the spec: the begin-phase callback of the coordinator
    (not among the sources). *)
Definition before_subface_creations (f_split : face_descriptor)
    (st : fields * TriangleMesh) : fields * TriangleMesh :=
  let '(this, tm) := st in
  ({| exactCallback := exactCallback this; split_face := Some f_split;
      created_faces := []; regions := regions this |}, tm).

(** Modelled from the spec: the created-face callback of the coordinator
    (not among the sources). *)
Definition after_subface_created (fi : face_descriptor)
    (st : fields * TriangleMesh) : fields * TriangleMesh :=
  let '(this, tm) := st in
  ({| exactCallback := exactCallback this; split_face := split_face this;
      created_faces := created_faces this ++ [fi];
      regions := regions this |}, tm).

(** Modelled from the spec: the end-phase callback of the coordinator
    (not among the sources); it folds in the forcing of
    [ExactLazyNumbersVisitor] when so constructed, files the recorded
    faces under the face being split and clears the buffer. *)
Definition after_subface_creations (st : fields * TriangleMesh)
  : fields * TriangleMesh :=
  let '(this, mesh) := st in
  let mesh :=
    if exactCallback this
    then ExactLazyNumbersVisitor.exact_faces (created_faces this) mesh
    else mesh in
  ({| exactCallback := exactCallback this; split_face := split_face this;
      created_faces := [];
      regions :=
        match split_face this with
        | Some f_split => regions this ++ [(f_split, created_faces this)]
        | None => regions this
        end |}, mesh).

Definition visitor : Corefinement.Visitor :=
  {| Corefinement.vstate := fields;
     Corefinement.new_vertex_added := fun _ _ st => st;
     Corefinement.before_subface_creations := before_subface_creations;
     Corefinement.after_subface_created := after_subface_created;
     Corefinement.after_subface_creations := after_subface_creations |}.

(** A face descriptor above every face of the mesh. *)
Definition next_face (tm : TriangleMesh) : face_descriptor :=
  map_fold (fun fi _ acc => N.max (N.succ fi) acc) 0 (fverts tm).

Fixpoint add_faces (tris : list (list vertex_descriptor)) (tm : TriangleMesh)
  : TriangleMesh :=
  match tris with
  | [] => tm
  | t :: tris' => add_faces tris' (Engine.insert_face (next_face tm) t tm)
  end.

Fixpoint remove_faces (fs : list face_descriptor) (tm : TriangleMesh)
  : TriangleMesh :=
  match fs with
  | [] => tm
  | fi :: fs' =>
      remove_faces fs' {| vpoint := vpoint tm; fverts := delete fi (fverts tm) |}
  end.

(** Modelled from the spec: the re-triangulation of one region is a
    parameter; given the mesh and the faces of the region it yields the
    triangles that replace them, or nothing when it cannot keep the
    surface manifold.  [remeshSplitFaces] (not among the sources) visits
    every recorded region, replaces the faces of the region by the new
    triangles, and leaves everything else in place; a region that cannot
    be re-triangulated is kept as it is and the pass reports it. *)
Definition Retriangulate : Type :=
  TriangleMesh -> list face_descriptor -> option (list (list vertex_descriptor)).

Definition remesh_region (retriangulate : Retriangulate)
    (region : list face_descriptor) (acc : bool * TriangleMesh)
  : bool * TriangleMesh :=
  let '(complete, tm) := acc in
  match retriangulate tm region with
  | Some tris => (complete, add_faces tris (remove_faces region tm))
  | None => (false, tm)
  end.

Fixpoint remesh_regions (retriangulate : Retriangulate)
    (rs : list (face_descriptor * list face_descriptor))
    (acc : bool * TriangleMesh) : bool * TriangleMesh :=
  match rs with
  | [] => acc
  | (_, region) :: rs' =>
      remesh_regions retriangulate rs' (remesh_region retriangulate region acc)
  end.

(** Modelled from the spec: [remeshSplitFaces] (not among the sources),
    the pass over every recorded region, in the order of recording. *)
Definition remeshSplitFaces (retriangulate : Retriangulate) (this : fields)
    (tm : TriangleMesh) : bool * TriangleMesh :=
  remesh_regions retriangulate (regions this) (true, tm).

(** A face lies in a recorded region. *)
Definition in_region (this : fields) (fi : face_descriptor) : bool :=
  existsb (fun r => existsb (N.eqb fi) r.2) (regions this).

End CorefinementVisitor.

(** [ExactLazyNumbersVisitor<TriangleMesh>()] handed to the engine: the
    visitor is default-constructed, the engine plays its steps against it
    and the refined mesh is what remains. *)
Definition visit_exact (cfg : BuildConfig) (script : list Engine.step)
    (tm : TriangleMesh) : TriangleMesh :=
  if has_new_vertex_added cfg
  then (Engine.run cfg ExactLazyNumbersVisitor.shape_new_vertex script (tt, tm)).2
  else (Engine.run cfg ExactLazyNumbersVisitor.shape_three_phase script
          (ExactLazyNumbersVisitor.init, tm)).2.

(** The same steps with no visitor attached. *)
Definition visit_none (cfg : BuildConfig) (script : list Engine.step)
    (tm : TriangleMesh) : TriangleMesh :=
  (Engine.run cfg Corefinement.Default_visitor script (tt, tm)).2.


(** ** A scripted world for the examples

    A stand-in for the callees: the feature table is two booleans, the
    engine plays a fixed script on the output mesh against the visitor of
    its first named-parameter pack and returns a fixed verdict, and may
    flip both toggles while it runs; the remesh pass is the coordinator's. *)

Module Sample.

Record World : Type := mkWorld {
  remesh_enabled : bool;
  exact_enabled : bool;
  out : TriangleMesh;
  coordinator : option CorefinementVisitor.fields
}.

Record Setup : Type := mkSetup {
  build : BuildConfig;
  script : list Engine.step;
  verdict : bool;
  flip_toggles : bool;
  retriangulate : CorefinementVisitor.Retriangulate
}.

Definition lookup_feature (f : Feature) (w : World) : bool :=
  match f with
  | ExperimentalFastCsgRemesh => remesh_enabled w
  | ExperimentalFastCsgExactCorefinementCallback => exact_enabled w
  end.

Definition play (s : Setup) (params : list visitor_param) (w : World) : World :=
  let flip := xorb (flip_toggles s) in
  match params with
  | [] =>
      {| remesh_enabled := flip (remesh_enabled w);
         exact_enabled := flip (exact_enabled w);
         out := visit_none (build s) (script s) (out w);
         coordinator := coordinator w |}
  | ExactLazyNumbersVisitor_param :: _ =>
      {| remesh_enabled := flip (remesh_enabled w);
         exact_enabled := flip (exact_enabled w);
         out := visit_exact (build s) (script s) (out w);
         coordinator := coordinator w |}
  | CorefinementVisitor_param exactCallback :: _ =>
      let st := Engine.run (build s) CorefinementVisitor.visitor (script s)
                  (CorefinementVisitor.construct exactCallback, out w) in
      {| remesh_enabled := flip (remesh_enabled w);
         exact_enabled := flip (exact_enabled w);
         out := st.2;
         coordinator := Some st.1 |}
  end.

Definition remesh_pass (s : Setup) (w : World) : bool * World :=
  match coordinator w with
  | Some this =>
      let r := CorefinementVisitor.remeshSplitFaces (retriangulate s) this (out w) in
      (r.1, {| remesh_enabled := remesh_enabled w;
               exact_enabled := exact_enabled w;
               out := r.2;
               coordinator := coordinator w |})
  | None => (true, w)
  end.

Definition callees (s : Setup) : Callees World :=
  {| feature_enabled := lookup_feature;
     engine := fun _ params w => (verdict s, play s params w);
     remesh := fun _ w => remesh_pass s w |}.

(** Sample data: a square on vertices 0..3 made of the triangles 0 and 1;
    the engine cuts triangle 0 at a new vertex 4 whose coordinates are
    still pending, and replaces it by the triangles 10, 11 and 12.
    Vertex 2, shared with the untouched triangle 1, has a pending
    coordinate left over from an earlier operation. *)

Definition cst (n : Z) : Lazy_exact_nt := Lazy_exact_Cst (inject_Z n).

Definition half : Lazy_exact_nt := Lazy_exact_Cst (1 # 2)%Q.

Definition exact_pt (a b c : Z) : Point_3 :=
  {| x := cst a; y := cst b; z := cst c |}.

Definition pending_pt : Point_3 :=
  {| x := Lazy_exact_Mul half (Lazy_exact_Add (cst 0) (cst 1));
     y := Lazy_exact_Mul half (Lazy_exact_Sub (cst 1) (cst 0));
     z := Lazy_exact_Opp (cst 0) |}.

Definition stale_pt : Point_3 :=
  {| x := Lazy_exact_Add (cst 0) (cst 1); y := cst 1; z := cst 0 |}.

Definition square : TriangleMesh :=
  {| vpoint := list_to_map
       [(0, exact_pt 0 0 0); (1, exact_pt 1 0 0); (2, stale_pt); (3, exact_pt 0 1 0)];
     fverts := list_to_map [(0, [0; 1; 2]); (1, [0; 2; 3])] |}.

Definition split_body : list Engine.step :=
  [Engine.add_vertex 0 4 pending_pt;
   Engine.add_subface 10 [0; 1; 4];
   Engine.add_subface 11 [1; 2; 4];
   Engine.add_subface 12 [2; 0; 4]].

Definition split_script : list Engine.step :=
  Engine.begin_split 0 :: split_body ++ [Engine.end_split].




(** The square once the engine has made its cut, before any forcing. *)
Definition cut_square : TriangleMesh := Engine.edits split_body square.

(** The three-phase visitor at the end of that cut. *)
Definition recorded : ExactLazyNumbersVisitor.fields :=
  {| ExactLazyNumbersVisitor.split_face := Some 0;
     ExactLazyNumbersVisitor.created_faces := [10; 11; 12] |}.

Definition cgal_5_3 : BuildConfig :=
  {| CGAL_VERSION_NR := CGAL_VERSION_NUMBER 5 3 0; FAST_CSG_KERNEL_IS_LAZY := true |}.

Definition cgal_5_5 : BuildConfig :=
  {| CGAL_VERSION_NR := CGAL_VERSION_NUMBER 5 5 0; FAST_CSG_KERNEL_IS_LAZY := true |}.

(** A re-triangulation that fans every region from vertex 4, and one that
    fails on every region. *)
Definition fan : CorefinementVisitor.Retriangulate :=
  fun _ _ => Some [[4; 0; 1]; [4; 1; 2]; [4; 2; 0]].

Definition refuse_everywhere : CorefinementVisitor.Retriangulate :=
  fun _ _ => None.

Definition start (remesh exact : bool) : World :=
  {| remesh_enabled := remesh; exact_enabled := exact;
     out := square; coordinator := None |}.

(** The coordinator once the engine has played the cut against it. *)
Definition coordinator_after_cut : CorefinementVisitor.fields :=
  {| CorefinementVisitor.exactCallback := false;
     CorefinementVisitor.split_face := Some 0;
     CorefinementVisitor.created_faces := [];
     CorefinementVisitor.regions := [(0, [10; 11; 12])] |}.

Definition setup (v : bool) (r : CorefinementVisitor.Retriangulate) : Setup :=
  {| build := cgal_5_3; script := split_script; verdict := v;
     flip_toggles := true; retriangulate := r |}.

End Sample.

(** * Render colour schemes ([src/glview/ColorMap.cc])

    The colour schemes of the viewer: a scheme is read from a JSON file
    into a property tree, its colours are parsed from ["#rrggbb"] strings,
    and the schemes found on disk are kept, ordered by index, beside the
    built-in one.

    The property-tree library, the file system and the platform paths are
    external: they form the interface [Platform] below.  Logging
    ([LOG], [PRINTD], [PRINTDB]) changes nothing that is modelled and is
    left out, and with it [ColorMap::dump], which only prints. *)

Module ColorMap.

Local Open Scope Z_scope.

(** What a call yields: its value, or the [what()] of the exception it
    throws (every handler of the file catches [std::exception]). *)
Inductive result (A : Type) : Type :=
| Ok (a : A)
| Throw (what : string).

Arguments Ok {A} a.
Arguments Throw {A} what.

(** [enum class RenderColor], with the keys the file names. *)
Inductive RenderColor : Type :=
| BACKGROUND_COLOR
| BACKGROUND_STOP_COLOR
| AXES_COLOR
| OPENCSG_FACE_FRONT_COLOR
| OPENCSG_FACE_BACK_COLOR
| CGAL_FACE_FRONT_COLOR
| CGAL_FACE_2D_COLOR
| CGAL_FACE_BACK_COLOR
| CGAL_EDGE_FRONT_COLOR
| CGAL_EDGE_BACK_COLOR
| CGAL_EDGE_2D_COLOR
| CROSSHAIR_COLOR.

Definition RenderColor_to_nat (rc : RenderColor) : nat :=
  match rc with
  | BACKGROUND_COLOR => 0
  | BACKGROUND_STOP_COLOR => 1
  | AXES_COLOR => 2
  | OPENCSG_FACE_FRONT_COLOR => 3
  | OPENCSG_FACE_BACK_COLOR => 4
  | CGAL_FACE_FRONT_COLOR => 5
  | CGAL_FACE_2D_COLOR => 6
  | CGAL_FACE_BACK_COLOR => 7
  | CGAL_EDGE_FRONT_COLOR => 8
  | CGAL_EDGE_BACK_COLOR => 9
  | CGAL_EDGE_2D_COLOR => 10
  | CROSSHAIR_COLOR => 11
  end%nat.

Definition RenderColor_of_nat (n : nat) : option RenderColor :=
  match n with
  | 0 => Some BACKGROUND_COLOR
  | 1 => Some BACKGROUND_STOP_COLOR
  | 2 => Some AXES_COLOR
  | 3 => Some OPENCSG_FACE_FRONT_COLOR
  | 4 => Some OPENCSG_FACE_BACK_COLOR
  | 5 => Some CGAL_FACE_FRONT_COLOR
  | 6 => Some CGAL_FACE_2D_COLOR
  | 7 => Some CGAL_FACE_BACK_COLOR
  | 8 => Some CGAL_EDGE_FRONT_COLOR
  | 9 => Some CGAL_EDGE_BACK_COLOR
  | 10 => Some CGAL_EDGE_2D_COLOR
  | 11 => Some CROSSHAIR_COLOR
  | _ => None
  end%nat.

#[export] Instance RenderColor_eq_dec : EqDecision RenderColor.
Proof. solve_decision. Defined.

#[export] Instance RenderColor_countable : Countable RenderColor :=
  inj_countable RenderColor_to_nat RenderColor_of_nat
    (fun rc => match rc with
               | BACKGROUND_COLOR | BACKGROUND_STOP_COLOR | AXES_COLOR
               | OPENCSG_FACE_FRONT_COLOR | OPENCSG_FACE_BACK_COLOR
               | CGAL_FACE_FRONT_COLOR | CGAL_FACE_2D_COLOR | CGAL_FACE_BACK_COLOR
               | CGAL_EDGE_FRONT_COLOR | CGAL_EDGE_BACK_COLOR | CGAL_EDGE_2D_COLOR
               | CROSSHAIR_COLOR => eq_refl
               end).

Definition all_render_colors : list RenderColor :=
  [BACKGROUND_COLOR; BACKGROUND_STOP_COLOR; AXES_COLOR;
   OPENCSG_FACE_FRONT_COLOR; OPENCSG_FACE_BACK_COLOR;
   CGAL_FACE_FRONT_COLOR; CGAL_FACE_2D_COLOR; CGAL_FACE_BACK_COLOR;
   CGAL_EDGE_FRONT_COLOR; CGAL_EDGE_BACK_COLOR; CGAL_EDGE_2D_COLOR;
   CROSSHAIR_COLOR].

(** A colour as the file builds it: the integer components handed to the
    constructor, [Color4f(r, g, b)] or [{r, g, b, a}]. *)
Inductive Color4f : Type :=
| Color4f_rgb (r g b : Z)
| Color4f_rgba (r g b a : Z).

(** [ColorScheme]: the colours by key.  [insert] of the standard maps keeps
    the element already stored under the key. *)
Definition ColorScheme_insert (rc : RenderColor) (c : Color4f)
    (cs : gmap RenderColor Color4f) : gmap RenderColor Color4f :=
  match cs !! rc with
  | Some _ => cs
  | None => <[rc := c]> cs
  end.

(** ** [strtol] in base 16

    As the C library reads a number: white space is skipped, one sign is
    taken, then an optional ["0x"] or ["0X"], then hexadecimal digits up to
    the first character that is not one; no digit at all reads as zero.
    [addColor] passes six characters, so the clamping of [strtol] at the
    limits of [long] is out of reach and left out. *)

Definition isspace (c : ascii) : bool :=
  let n := Z.of_N (N_of_ascii c) in
  (n =? 32) || ((9 <=? n) && (n <=? 13)).

Definition hex_digit (c : ascii) : option Z :=
  let n := Z.of_N (N_of_ascii c) in
  if (48 <=? n) && (n <=? 57) then Some (n - 48)
  else if (97 <=? n) && (n <=? 102) then Some (n - 87)
  else if (65 <=? n) && (n <=? 70) then Some (n - 55)
  else None.

Fixpoint strtol_digits (acc : Z) (s : string) : Z :=
  match s with
  | EmptyString => acc
  | String c s' =>
      match hex_digit c with
      | Some d => strtol_digits (acc * 16 + d) s'
      | None => acc
      end
  end.

Fixpoint skip_spaces (s : string) : string :=
  match s with
  | EmptyString => EmptyString
  | String c s' => if isspace c then skip_spaces s' else s
  end.

Definition is_x (c : ascii) : bool :=
  Ascii.eqb c "x"%char || Ascii.eqb c "X"%char.

Definition skip_0x (s : string) : string :=
  match s with
  | String c0 (String c1 s') =>
      if Ascii.eqb c0 "0"%char && is_x c1 then s' else s
  | _ => s
  end.

Definition strtol_16 (s : string) : Z :=
  match skip_spaces s with
  | String c s' =>
      if Ascii.eqb c "-"%char then - strtol_digits 0 (skip_0x s')
      else if Ascii.eqb c "+"%char then strtol_digits 0 (skip_0x s')
      else strtol_digits 0 (skip_0x (String c s'))
  | EmptyString => 0
  end.

(** The conversion of the [long] to [unsigned int]. *)
Definition to_unsigned_int (v : Z) : Z := v mod 2 ^ 32.

(** [color.substr(1)] *)
Definition substr_1 (s : string) : string :=
  match s with
  | String _ s' => s'
  | EmptyString => EmptyString
  end.

(** [color.at(0)], read only when the string has seven characters. *)
Definition at_0 (s : string) : ascii :=
  match s with
  | String c _ => c
  | EmptyString => Ascii.zero
  end.

(** The body of the [if] of [addColor]: the three components read from
    the string. *)
Definition color_components (color : string) : Z * Z * Z :=
  let val := to_unsigned_int (strtol_16 (substr_1 color)) in
  let r := Z.land (Z.shiftr val 16) 255 in
  let g := Z.land (Z.shiftr val 8) 255 in
  let b := Z.land val 255 in
  (r, g, b).

Definition well_formed_color (color : string) : bool :=
  (String.length color =? 7)%nat && Ascii.eqb (at_0 color) "#"%char.

(** ** The platform *)

Record directory_entry : Type := mkEntry {
  is_regular_file : bool;
  entry_path : string
}.

(** The property tree ([get_child] on a one-step path, the data of a node,
    the translators behind [get<int>] and [get<bool>], [read_json]), the
    file system (whether a path exists and is a directory, its entries in
    iteration order, [path / name], [path.extension()]) and the two base
    paths of [PlatformUtils]. *)
Class Platform : Type := mkPlatform {
  ptree : Type;
  ptree_empty : ptree;
  ptree_get_child : ptree -> string -> result ptree;
  ptree_data : ptree -> string;
  ptree_int : string -> result Z;
  ptree_bool : string -> result bool;
  read_json : string -> result ptree;
  is_directory : string -> bool;
  directory_entries : string -> list directory_entry;
  path_append : string -> string -> string;
  path_extension : string -> string;
  resourceBasePath : string;
  userConfigPath : string
}.

Section WithPlatform.

Context `{P : Platform}.

(** [pt.get<std::string>(key)] *)
Definition get_string (t : ptree) (key : string) : result string :=
  match ptree_get_child t key with
  | Ok child => Ok (ptree_data child)
  | Throw w => Throw w
  end.

(** [pt.get<int>(key)] *)
Definition get_int (t : ptree) (key : string) : result Z :=
  match ptree_get_child t key with
  | Ok child => ptree_int (ptree_data child)
  | Throw w => Throw w
  end.

(** [pt.get<bool>(key)] *)
Definition get_bool (t : ptree) (key : string) : result bool :=
  match ptree_get_child t key with
  | Ok child => ptree_bool (ptree_data child)
  | Throw w => Throw w
  end.

(** ** [RenderColorScheme] *)

Record RenderColorScheme : Type := mkScheme {
  _path : string;
  _name : string;
  _index : Z;
  _show_in_gui : bool;
  _error : string;
  _color_scheme : gmap RenderColor Color4f;
  pt : ptree
}.

Definition DEFAULT_COLOR_SCHEME_NAME : string := "Cornfield".

(** [RenderColorScheme::RenderColorScheme()] *)
Definition RenderColorScheme_default : RenderColorScheme :=
  let cs := ∅ in
  let cs := ColorScheme_insert BACKGROUND_COLOR (Color4f_rgb 0xff 0xff 0xe5) cs in
  let cs := ColorScheme_insert BACKGROUND_STOP_COLOR (Color4f_rgb 0xff 0xff 0xe5) cs in
  let cs := ColorScheme_insert AXES_COLOR (Color4f_rgb 0x00 0x00 0x00) cs in
  let cs := ColorScheme_insert OPENCSG_FACE_FRONT_COLOR (Color4f_rgb 0xf9 0xd7 0x2c) cs in
  let cs := ColorScheme_insert OPENCSG_FACE_BACK_COLOR (Color4f_rgb 0x9d 0xcb 0x51) cs in
  let cs := ColorScheme_insert CGAL_FACE_FRONT_COLOR (Color4f_rgb 0xf9 0xd7 0x2c) cs in
  let cs := ColorScheme_insert CGAL_FACE_2D_COLOR (Color4f_rgb 0x00 0xbf 0x99) cs in
  let cs := ColorScheme_insert CGAL_FACE_BACK_COLOR (Color4f_rgb 0x9d 0xcb 0x51) cs in
  let cs := ColorScheme_insert CGAL_EDGE_FRONT_COLOR (Color4f_rgb 0xff 0xec 0x5e) cs in
  let cs := ColorScheme_insert CGAL_EDGE_BACK_COLOR (Color4f_rgb 0xab 0xd8 0x56) cs in
  let cs := ColorScheme_insert CGAL_EDGE_2D_COLOR (Color4f_rgb 0xff 0x00 0x00) cs in
  let cs := ColorScheme_insert CROSSHAIR_COLOR (Color4f_rgb 0x80 0x00 0x00) cs in
  {| _path := ""; _name := DEFAULT_COLOR_SCHEME_NAME; _index := 1000;
     _show_in_gui := true; _error := ""; _color_scheme := cs;
     pt := ptree_empty |}.

(** A member function that may throw: it maps the object to what it
    yields and the object as it has become; what was stored before a
    throw stays stored. *)
Definition M (A : Type) : Type :=
  RenderColorScheme -> result A * RenderColorScheme.

Definition ret {A : Type} (a : A) : M A := fun this => (Ok a, this).

Definition throw {A : Type} (what : string) : M A := fun this => (Throw what, this).

Definition bind {A B : Type} (m : M A) (k : A -> M B) : M B :=
  fun this =>
    match m this with
    | (Ok a, this') => k a this'
    | (Throw what, this') => (Throw what, this')
    end.

Definition try_catch {A : Type} (m : M A) (handler : string -> M A) : M A :=
  fun this =>
    match m this with
    | (Ok a, this') => (Ok a, this')
    | (Throw what, this') => handler what this'
    end.

Definition lift {A : Type} (r : result A) : M A := fun this => (r, this).

Definition set_pt (t : ptree) : M unit :=
  fun this =>
    (Ok tt, {| _path := _path this; _name := _name this; _index := _index this;
               _show_in_gui := _show_in_gui this; _error := _error this;
               _color_scheme := _color_scheme this; pt := t |}).

Definition set_name (n : string) : M unit :=
  fun this =>
    (Ok tt, {| _path := _path this; _name := n; _index := _index this;
               _show_in_gui := _show_in_gui this; _error := _error this;
               _color_scheme := _color_scheme this; pt := pt this |}).

Definition set_index (i : Z) : M unit :=
  fun this =>
    (Ok tt, {| _path := _path this; _name := _name this; _index := i;
               _show_in_gui := _show_in_gui this; _error := _error this;
               _color_scheme := _color_scheme this; pt := pt this |}).

Definition set_show_in_gui (b : bool) : M unit :=
  fun this =>
    (Ok tt, {| _path := _path this; _name := _name this; _index := _index this;
               _show_in_gui := b; _error := _error this;
               _color_scheme := _color_scheme this; pt := pt this |}).

Definition set_error (w : string) : M unit :=
  fun this =>
    (Ok tt, {| _path := _path this; _name := _name this; _index := _index this;
               _show_in_gui := _show_in_gui this; _error := w;
               _color_scheme := _color_scheme this; pt := pt this |}).

Definition insert_color (rc : RenderColor) (c : Color4f) : M unit :=
  fun this =>
    (Ok tt, {| _path := _path this; _name := _name this; _index := _index this;
               _show_in_gui := _show_in_gui this; _error := _error this;
               _color_scheme := ColorScheme_insert rc c (_color_scheme this);
               pt := pt this |}).

Definition invalid_color_message (key color : string) : string :=
  String.append "invalid color value for key '"
    (String.append key (String.append "': '" (String.append color "'"))).

(** [RenderColorScheme::addColor] *)
Definition addColor (colorKey : RenderColor) (key : string) : M unit :=
  bind (fun this => (ptree_get_child (pt this) "colors", this)) (fun colors =>
  bind (lift (get_string colors key)) (fun color =>
  if well_formed_color color then
    let '(r, g, b) := color_components color in
    insert_color colorKey (Color4f_rgb r g b)
  else
    throw (invalid_color_message key color))).

(** The [try] block of [RenderColorScheme::RenderColorScheme(path)]. *)
Definition read_scheme (path : string) : M unit :=
  bind (lift (read_json path)) (fun t =>
  bind (set_pt t) (fun _ =>
  bind (fun this => (get_string (pt this) "name", this)) (fun n =>
  bind (set_name n) (fun _ =>
  bind (fun this => (get_int (pt this) "index", this)) (fun i =>
  bind (set_index i) (fun _ =>
  bind (fun this => (get_bool (pt this) "show-in-gui", this)) (fun g =>
  bind (set_show_in_gui g) (fun _ =>
  bind (addColor BACKGROUND_COLOR "background") (fun _ =>
  bind (addColor AXES_COLOR "axes-color") (fun _ =>
  bind (addColor OPENCSG_FACE_FRONT_COLOR "opencsg-face-front") (fun _ =>
  bind (addColor OPENCSG_FACE_BACK_COLOR "opencsg-face-back") (fun _ =>
  bind (addColor CGAL_FACE_FRONT_COLOR "cgal-face-front") (fun _ =>
  bind (addColor CGAL_FACE_2D_COLOR "cgal-face-2d") (fun _ =>
  bind (addColor CGAL_FACE_BACK_COLOR "cgal-face-back") (fun _ =>
  bind (addColor CGAL_EDGE_FRONT_COLOR "cgal-edge-front") (fun _ =>
  bind (addColor CGAL_EDGE_BACK_COLOR "cgal-edge-back") (fun _ =>
  bind (addColor CGAL_EDGE_2D_COLOR "cgal-edge-2d") (fun _ =>
  bind (addColor CROSSHAIR_COLOR "crosshair") (fun _ =>
  try_catch (addColor BACKGROUND_STOP_COLOR "background-stop")
    (fun _ => addColor BACKGROUND_STOP_COLOR "background")))))))))))))))))))).

(** The handler of the outer [catch]. *)
Definition read_failed (what : string) : M unit :=
  bind (set_error what) (fun _ =>
  bind (set_name "") (fun _ =>
  bind (set_index 0) (fun _ =>
  set_show_in_gui false))).

(** [RenderColorScheme::RenderColorScheme(const fs::path& path)].  The
    members the body assigns on every path start out arbitrary; they are
    given the values of an empty object here. *)
Definition RenderColorScheme_from (path : string) : RenderColorScheme :=
  let this := {| _path := path; _name := ""; _index := 0; _show_in_gui := false;
                 _error := ""; _color_scheme := ∅; pt := ptree_empty |} in
  (try_catch (read_scheme path) read_failed this).2.

(** [RenderColorScheme::valid] *)
Definition valid (this : RenderColorScheme) : bool :=
  negb (String.eqb (_name this) "").

(** ** [ColorMap] *)

(** [colorscheme_set_t]: the schemes by index, in ascending order of
    index.  Its declaration is in [ColorMap.h], not among the sources;
    [multi] says whether the container keeps several schemes under one
    index (a multimap, which puts the new one after the others) or one
    only (a map, which drops the new one). *)
Fixpoint set_insert (multi : bool) (index : Z) (scheme : RenderColorScheme)
    (set : list (Z * RenderColorScheme)) : list (Z * RenderColorScheme) :=
  match set with
  | [] => [(index, scheme)]
  | (i, s) :: set' =>
      if index <? i then (index, scheme) :: set
      else if (index =? i) && negb multi then set
      else (i, s) :: set_insert multi index scheme set'
  end.

(** [ColorMap::findColorScheme]; [None] is the null pointer. *)
Fixpoint findColorScheme (colorSchemeSet : list (Z * RenderColorScheme))
    (name : string) : option (gmap RenderColor Color4f) :=
  match colorSchemeSet with
  | [] => None
  | (_, scheme) :: rest =>
      if String.eqb name (_name scheme) then Some (_color_scheme scheme)
      else findColorScheme rest name
  end.

(** [ColorMap::defaultColorSchemeName] *)
Definition defaultColorSchemeName : string := DEFAULT_COLOR_SCHEME_NAME.

(** [ColorMap::defaultColorScheme]: the dereference of what
    [findColorScheme] returns; [None] where it dereferences null. *)
Definition defaultColorScheme (colorSchemeSet : list (Z * RenderColorScheme))
  : option (gmap RenderColor Color4f) :=
  findColorScheme colorSchemeSet DEFAULT_COLOR_SCHEME_NAME.

(** [ColorMap::colorSchemeNames] *)
Fixpoint colorSchemeNames (colorSchemeSet : list (Z * RenderColorScheme))
    (guiOnly : bool) : list string :=
  match colorSchemeSet with
  | [] => []
  | (_, scheme) :: rest =>
      if guiOnly && negb (_show_in_gui scheme)
      then colorSchemeNames rest guiOnly
      else _name scheme :: colorSchemeNames rest guiOnly
  end.

(** [ColorMap::getColor], with the set of the instance it consults;
    [None] where it dereferences null. *)
Definition getColor (colorSchemeSet : list (Z * RenderColorScheme))
    (cs : gmap RenderColor Color4f) (rc : RenderColor) : option Color4f :=
  match cs !! rc with
  | Some c => Some c
  | None =>
      match defaultColorScheme colorSchemeSet with
      | Some def =>
          match def !! rc with
          | Some c => Some c
          | None => Some (Color4f_rgba 0 0 0 127)
          end
      | None => None
      end
  end.

(** One turn of the loop of [enumerateColorSchemesInPath]. *)
Definition enumerate_entry (multi : bool)
    (colorSchemeSet : list (Z * RenderColorScheme))
    (result_set : list (Z * RenderColorScheme)) (entry : directory_entry)
  : list (Z * RenderColorScheme) :=
  if negb (is_regular_file entry) then result_set
  else
    let path := entry_path entry in
    if negb (String.eqb (path_extension path) ".json") then result_set
    else
      let colorScheme := RenderColorScheme_from path in
      if valid colorScheme &&
         match findColorScheme colorSchemeSet (_name colorScheme) with
         | None => true
         | Some _ => false
         end
      then set_insert multi (_index colorScheme) colorScheme result_set
      else result_set.

(** [ColorMap::enumerateColorSchemesInPath]; [colorSchemeSet] is the
    member [findColorScheme] looks into. *)
Definition enumerateColorSchemesInPath (multi : bool)
    (colorSchemeSet : list (Z * RenderColorScheme))
    (result_set : list (Z * RenderColorScheme)) (basePath : string)
  : list (Z * RenderColorScheme) :=
  let color_schemes := path_append (path_append basePath "color-schemes") "render" in
  if is_directory color_schemes
  then fold_left (enumerate_entry multi colorSchemeSet)
         (directory_entries color_schemes) result_set
  else result_set.

(** [ColorMap::enumerateColorSchemes] *)
Definition enumerateColorSchemes (multi : bool)
    (colorSchemeSet : list (Z * RenderColorScheme))
  : list (Z * RenderColorScheme) :=
  let result_set := [] in
  let defaultColorScheme := RenderColorScheme_default in
  let result_set :=
    set_insert multi (_index defaultColorScheme) defaultColorScheme result_set in
  let result_set :=
    enumerateColorSchemesInPath multi colorSchemeSet result_set resourceBasePath in
  let result_set :=
    enumerateColorSchemesInPath multi colorSchemeSet result_set userConfigPath in
  result_set.

(** [ColorMap::ColorMap]: the member is still empty while the schemes are
    enumerated. *)
Definition ColorMap_new (multi : bool) : list (Z * RenderColorScheme) :=
  enumerateColorSchemes multi [].

End WithPlatform.

Arguments RenderColorScheme P : clear implicits.

End ColorMap.

(** ** Vocabulary of the colour-scheme properties *)

Module ColorMapTerms.

Import ColorMap.

(** A string of hexadecimal digits only. *)
Fixpoint all_hex (s : string) : bool :=
  match s with
  | EmptyString => true
  | String c s' =>
      match hex_digit c with
      | Some _ => all_hex s'
      | None => false
      end
  end.

(** The keys the constructor reads before ["background-stop"], with the
    colour each one sets, in the order of the source. *)
Definition mandatory_colors : list (RenderColor * string) :=
  [(BACKGROUND_COLOR, "background");
   (AXES_COLOR, "axes-color");
   (OPENCSG_FACE_FRONT_COLOR, "opencsg-face-front");
   (OPENCSG_FACE_BACK_COLOR, "opencsg-face-back");
   (CGAL_FACE_FRONT_COLOR, "cgal-face-front");
   (CGAL_FACE_2D_COLOR, "cgal-face-2d");
   (CGAL_FACE_BACK_COLOR, "cgal-face-back");
   (CGAL_EDGE_FRONT_COLOR, "cgal-edge-front");
   (CGAL_EDGE_BACK_COLOR, "cgal-edge-back");
   (CGAL_EDGE_2D_COLOR, "cgal-edge-2d");
   (CROSSHAIR_COLOR, "crosshair")].

Section WithPlatform.

Context `{P : Platform}.

(** A run of [addColor] calls. *)
Fixpoint add_colors (l : list (RenderColor * string)) : M unit :=
  match l with
  | [] => ret tt
  | (rc, key) :: l' => bind (addColor rc key) (fun _ => add_colors l')
  end.

(** The colour [addColor] makes of the string under [key], when there is
    one and it is seven characters starting with a hash. *)
Definition color_at (colors : ptree) (key : string) : option Color4f :=
  match get_string colors key with
  | Ok color =>
      if well_formed_color color
      then let '(r, g, b) := color_components color in Some (Color4f_rgb r g b)
      else None
  | Throw _ => None
  end.

(** The colours a run of [addColor] calls leaves in a scheme, given the
    ["colors"] node: each key gets its colour unless it has one. *)
Fixpoint fold_colors (colors : ptree) (l : list (RenderColor * string))
    (cs : gmap RenderColor Color4f) : gmap RenderColor Color4f :=
  match l with
  | [] => cs
  | (rc, key) :: l' =>
      match color_at colors key with
      | Some c => fold_colors colors l' (ColorScheme_insert rc c cs)
      | None => cs
      end
  end.

Definition set_colors (cs : gmap RenderColor Color4f) (this : RenderColorScheme P)
  : RenderColorScheme P :=
  {| _path := _path this; _name := _name this; _index := _index this;
     _show_in_gui := _show_in_gui this; _error := _error this;
     _color_scheme := cs; pt := pt this |}.

(** What a scheme file must hold for the constructor to get through its
    [try] block: the three header fields and the eleven colours read before
    ["background-stop"]. *)
Definition readable (path : string) (t : ptree) (n : string) (i : Z) (g : bool)
    (colors : ptree) : Prop :=
  read_json path = Ok t ∧
  get_string t "name" = Ok n ∧
  get_int t "index" = Ok i ∧
  get_bool t "show-in-gui" = Ok g ∧
  ptree_get_child t "colors" = Ok colors ∧
  Forall (fun p => is_Some (color_at colors p.2)) mandatory_colors.

(** The colour stored under [BACKGROUND_STOP_COLOR]: that of
    ["background-stop"] when it can be read, else that of ["background"]. *)
Definition stop_color (colors : ptree) : option Color4f :=
  match color_at colors "background-stop" with
  | Some c => Some c
  | None => color_at colors "background"
  end.

(** The order of the set of schemes. *)
Definition by_index (a b : Z * RenderColorScheme P) : Prop := (a.1 ≤ b.1)%Z.

(** A scheme with a colour under every key. *)
Definition complete (cs : gmap RenderColor Color4f) : Prop :=
  ∀ rc, is_Some (cs !! rc).

(** What the loop of [enumerateColorSchemesInPath] keeps of a directory
    entry while the member set is empty: a regular file, named [*.json],
    that yields a valid scheme. *)
Definition accepted (entry : directory_entry) : bool :=
  is_regular_file entry &&
  String.eqb (path_extension (entry_path entry)) ".json" &&
  valid (RenderColorScheme_from (entry_path entry)).

(** The scheme read from a directory entry, with the index it is stored
    under. *)
Definition scheme_of_entry (entry : directory_entry) : Z * RenderColorScheme P :=
  let colorScheme := RenderColorScheme_from (entry_path entry) in
  (_index colorScheme, colorScheme).

(** The entries the enumeration visits under a base path. *)
Definition scheme_files (basePath : string) : list directory_entry :=
  let color_schemes := path_append (path_append basePath "color-schemes") "render" in
  if is_directory color_schemes then directory_entries color_schemes else [].

End WithPlatform.

End ColorMapTerms.

(** ** A sample platform

    Property trees as nodes with a datum and named children, two files in
    the resource directory, none in the user directory. *)

Module ColorMapSample.

Import ColorMap.

Local Open Scope Z_scope.

Inductive tree : Type :=
| Node (data : string) (children : list (string * tree)).

Definition tree_data (t : tree) : string :=
  match t with Node d _ => d end.

Fixpoint find_child (cs : list (string * tree)) (key : string) : result tree :=
  match cs with
  | [] => Throw "No such node"
  | (k, t) :: cs' => if String.eqb k key then Ok t else find_child cs' key
  end.

Definition tree_get_child (t : tree) (key : string) : result tree :=
  match t with Node _ cs => find_child cs key end.

Definition leaf (d : string) : tree := Node d [].

Definition sample_int (s : string) : result Z :=
  if String.eqb s "1000" then Ok 1000
  else if String.eqb s "50" then Ok 50
  else Throw "conversion of data to type int failed".

Definition sample_bool (s : string) : result bool :=
  if String.eqb s "true" then Ok true
  else if String.eqb s "false" then Ok false
  else Throw "conversion of data to type bool failed".

Definition colors_of (stop : list (string * tree)) : tree :=
  Node "" ([("background", leaf "#aaaaff");
            ("axes-color", leaf "#222233");
            ("opencsg-face-front", leaf "#ffffdd");
            ("opencsg-face-back", leaf "#dd22dd");
            ("cgal-face-front", leaf "#ddddff");
            ("cgal-face-2d", leaf "#009900");
            ("cgal-face-back", leaf "#dd22dd");
            ("cgal-edge-front", leaf "#ff0000");
            ("cgal-edge-back", leaf "#ff0000");
            ("cgal-edge-2d", leaf "#ff00ff");
            ("crosshair", leaf "#f0f0f0")] ++ stop).

(** A scheme with no ["background-stop"], named like the built-in one and
    indexed below it. *)
Definition sunset : tree :=
  Node "" [("name", leaf "Cornfield"); ("index", leaf "50");
           ("show-in-gui", leaf "false"); ("colors", colors_of [])].

(** A scheme whose ["crosshair"] is missing. *)
Definition broken : tree :=
  Node "" [("name", leaf "Broken"); ("index", leaf "1000");
           ("show-in-gui", leaf "true");
           ("colors", Node "" [("background", leaf "#aaaaff")])].

Definition sample_read_json (path : string) : result tree :=
  if String.eqb path "sunset.json" then Ok sunset
  else if String.eqb path "broken.json" then Ok broken
  else Throw "cannot open file".

Definition sample_extension (path : string) : string :=
  if String.eqb path "README" then "" else ".json".

#[export] Instance platform : Platform :=
  {| ptree := tree;
     ptree_empty := Node "" [];
     ptree_get_child := tree_get_child;
     ptree_data := tree_data;
     ptree_int := sample_int;
     ptree_bool := sample_bool;
     read_json := sample_read_json;
     is_directory := fun p => String.eqb p "res/color-schemes/render";
     directory_entries := fun _ =>
       [{| is_regular_file := true; entry_path := "sunset.json" |};
        {| is_regular_file := true; entry_path := "README" |};
        {| is_regular_file := true; entry_path := "broken.json" |}];
     path_append := fun a b => String.append a (String.append "/" b);
     path_extension := sample_extension;
     resourceBasePath := "res";
     userConfigPath := "home" |}.

End ColorMapSample.

(** ** Vocabulary of the properties *)

(** A point after the three [CGAL::exact] calls. *)
Definition exact_point (pt : Point_3) : Point_3 :=
  exact_z (exact_y (exact_x pt)).

(** Two meshes with the same faces, the same vertices and the same
    coordinate values; only the representation of a coordinate (pending or
    exact) may differ. *)
Definition same_geometry (m1 m2 : TriangleMesh) : Prop :=
  fverts m1 = fverts m2 ∧
  ∀ v, point_value <$> point m1 v = point_value <$> point m2 v.

(** The vertices met around the faces of a list, face after face. *)
Definition vertices_of_faces (fs : list face_descriptor) (mesh : TriangleMesh)
  : list vertex_descriptor :=
  concat (map (fun fi => vertices_around_face fi mesh) fs).

(** The four configurations of section 4.1. *)
Inductive Configuration : Type :=
| NoObservers
| ExactnessOnly
| RemeshOnly
| Combined.

Definition resolve (forceExactNumbers remeshAfterSplit : bool) : Configuration :=
  match forceExactNumbers, remeshAfterSplit with
  | false, false => NoObservers
  | true, false => ExactnessOnly
  | false, true => RemeshOnly
  | true, true => Combined
  end.

(** What a configuration asks of the callees once the toggles are known:
    the named parameters of the engine call, and the visitor whose remesh
    pass follows it, if any. *)
Definition engine_params (c : Configuration) : list visitor_param :=
  match c with
  | NoObservers => []
  | ExactnessOnly => [ExactLazyNumbersVisitor_param; ExactLazyNumbersVisitor_param]
  | RemeshOnly =>
      [CorefinementVisitor_param false; CorefinementVisitor_param false;
       CorefinementVisitor_param false]
  | Combined =>
      [CorefinementVisitor_param true; CorefinementVisitor_param true;
       CorefinementVisitor_param true]
  end.

Definition remesh_visitor (c : Configuration) : option visitor_param :=
  match c with
  | NoObservers | ExactnessOnly => None
  | RemeshOnly => Some (CorefinementVisitor_param false)
  | Combined => Some (CorefinementVisitor_param true)
  end.

(** A program that never reads a feature toggle, whatever its callees
    answer. *)
Inductive no_feature_read {A : Type} : Prog A -> Prop :=
| nfr_Ret (a : A) : no_feature_read (Ret a)
| nfr_corefine (op : Operation) (params : list visitor_param) (k : bool -> Prog A) :
    (∀ b, no_feature_read (k b)) ->
    no_feature_read (Do (corefine_and_compute op params) k)
| nfr_remesh (visitor : visitor_param) (k : unit -> Prog A) :
    (∀ u, no_feature_read (k u)) ->
    no_feature_read (Do (remeshSplitFaces visitor) k).

(** The reads of one toggle in a log. *)
Definition is_read_of (f : Feature) (e : event) : bool :=
  match e, f with
  | ev_is_enabled ExperimentalFastCsgRemesh _, ExperimentalFastCsgRemesh => true
  | ev_is_enabled ExperimentalFastCsgExactCorefinementCallback _,
    ExperimentalFastCsgExactCorefinementCallback => true
  | _, _ => false
  end.

Definition count_reads (f : Feature) (l : list event) : nat :=
  length (filter (fun e => is_read_of f e = true) l).

Definition is_remesh (e : event) : bool :=
  match e with
  | ev_remeshSplitFaces _ _ => true
  | _ => false
  end.

(** The callees with the feature table frozen as it is in world [w]. *)
Definition frozen_at {W : Type} (cs : Callees W) (w : W) : Callees W :=
  {| feature_enabled := fun f _ => feature_enabled cs f w;
     engine := engine cs;
     remesh := remesh cs |}.

(** * Properties *)

(** ** Forcing a point *)

Lemma exact_point_is_exact pt : point_is_exact (exact_point pt) = true.
Proof. reflexivity. Qed.

Lemma exact_point_depth pt : point_depth (exact_point pt) = 0%nat.
Proof. reflexivity. Qed.

Lemma exact_point_value pt : point_value (exact_point pt) = point_value pt.
Proof. destruct pt; reflexivity. Qed.

Lemma exact_point_idem pt : exact_point (exact_point pt) = exact_point pt.
Proof. reflexivity. Qed.


Lemma new_vertex_added_vpoint i_id v tm :
  vpoint (ExactLazyNumbersVisitor.new_vertex_added i_id v tm)
  = alter exact_point v (vpoint tm).
Proof.
  unfold ExactLazyNumbersVisitor.new_vertex_added, update_point; simpl.
  apply map_eq. intros u. destruct (decide (v = u)) as [->|Hne].
  - rewrite !lookup_alter_eq. destruct (vpoint tm !! u); reflexivity.
  - rewrite !lookup_alter_ne by assumption. reflexivity.
Qed.

Lemma new_vertex_added_fverts i_id v tm :
  fverts (ExactLazyNumbersVisitor.new_vertex_added i_id v tm) = fverts tm.
Proof. reflexivity. Qed.

Lemma new_vertex_added_point i_id v tm u :
  point (ExactLazyNumbersVisitor.new_vertex_added i_id v tm) u
  = if decide (v = u) then exact_point <$> point tm u else point tm u.
Proof.
  unfold point. rewrite new_vertex_added_vpoint.
  destruct (decide (v = u)) as [->|Hne].
  - apply lookup_alter_eq.
  - apply lookup_alter_ne. assumption.
Qed.

(** ** The loops of [after_subface_creations] *)

Lemma exact_vertices_cons v vs mesh :
  ExactLazyNumbersVisitor.exact_vertices (v :: vs) mesh
  = ExactLazyNumbersVisitor.exact_vertices vs
      (ExactLazyNumbersVisitor.new_vertex_added 0 v mesh).
Proof. reflexivity. Qed.

Lemma exact_vertices_fverts vs : ∀ mesh,
  fverts (ExactLazyNumbersVisitor.exact_vertices vs mesh) = fverts mesh.
Proof.
  induction vs as [|v vs IH]; intros mesh; [reflexivity|].
  rewrite exact_vertices_cons, IH. reflexivity.
Qed.

Lemma exact_vertices_app vs1 : ∀ vs2 mesh,
  ExactLazyNumbersVisitor.exact_vertices (vs1 ++ vs2) mesh
  = ExactLazyNumbersVisitor.exact_vertices vs2
      (ExactLazyNumbersVisitor.exact_vertices vs1 mesh).
Proof.
  induction vs1 as [|v vs1 IH]; intros vs2 mesh; [reflexivity|].
  rewrite <- app_comm_cons, !exact_vertices_cons. apply IH.
Qed.

Lemma exact_vertices_point vs : ∀ mesh u,
  point (ExactLazyNumbersVisitor.exact_vertices vs mesh) u
  = if decide (u ∈ vs) then exact_point <$> point mesh u else point mesh u.
Proof.
  induction vs as [|v vs IH]; intros mesh u.
  - simpl. destruct (decide (u ∈ [])) as [Hin|_]; [|reflexivity].
    inversion Hin.
  - rewrite exact_vertices_cons, IH, new_vertex_added_point.
    destruct (decide (v = u)) as [->|Hne].
    + destruct (decide (u ∈ u :: vs)) as [_|Hn]; [|exfalso; apply Hn; left].
      destruct (decide (u ∈ vs)); [|reflexivity].
      destruct (point mesh u); reflexivity.
    + destruct (decide (u ∈ vs)) as [Hin|Hout].
      * destruct (decide (u ∈ v :: vs)) as [_|Hn]; [reflexivity|].
        exfalso; apply Hn; right; exact Hin.
      * destruct (decide (u ∈ v :: vs)) as [Hin|_]; [|reflexivity].
        apply elem_of_cons in Hin as [->|Hin]; [congruence|contradiction].
Qed.

Lemma vertices_around_face_fverts fi m1 m2 :
  fverts m1 = fverts m2 -> vertices_around_face fi m1 = vertices_around_face fi m2.
Proof. unfold vertices_around_face. intros ->. reflexivity. Qed.

Lemma exact_faces_unfold fs : ∀ mesh,
  ExactLazyNumbersVisitor.exact_faces fs mesh
  = ExactLazyNumbersVisitor.exact_vertices (vertices_of_faces fs mesh) mesh.
Proof.
  induction fs as [|fi fs IH]; intros mesh; [reflexivity|].
  simpl ExactLazyNumbersVisitor.exact_faces. rewrite IH.
  unfold vertices_of_faces at 2. simpl. rewrite exact_vertices_app.
  f_equal. unfold vertices_of_faces. f_equal.
  apply map_ext. intros fj. apply vertices_around_face_fverts.
  apply exact_vertices_fverts.
Qed.

Lemma exact_faces_fverts fs mesh :
  fverts (ExactLazyNumbersVisitor.exact_faces fs mesh) = fverts mesh.
Proof. rewrite exact_faces_unfold. apply exact_vertices_fverts. Qed.

Lemma elem_of_vertices_of_faces fs mesh u :
  u ∈ vertices_of_faces fs mesh ↔
  ∃ fi, fi ∈ fs ∧ u ∈ vertices_around_face fi mesh.
Proof.
  unfold vertices_of_faces. induction fs as [|fj fs IH]; simpl.
  - split; [intros H; inversion H|intros (fi & H & _); inversion H].
  - rewrite elem_of_app, IH. split.
    + intros [Hu|(fi & Hfi & Hu)].
      * exists fj. split; [left|assumption].
      * exists fi. split; [right|]; assumption.
    + intros (fi & Hfi & Hu). apply elem_of_cons in Hfi as [->|Hfi].
      * left; assumption.
      * right. exists fi. split; assumption.
Qed.

Lemma exact_faces_point fs mesh u :
  point (ExactLazyNumbersVisitor.exact_faces fs mesh) u
  = if decide (u ∈ vertices_of_faces fs mesh)
    then exact_point <$> point mesh u else point mesh u.
Proof. rewrite exact_faces_unfold. apply exact_vertices_point. Qed.

Lemma exact_faces_same_geometry fs mesh :
  same_geometry (ExactLazyNumbersVisitor.exact_faces fs mesh) mesh.
Proof.
  split; [apply exact_faces_fverts|].
  intros v. rewrite exact_faces_point.
  destruct (decide _); [|reflexivity].
  destruct (point mesh v) as [pt|]; simpl; [|reflexivity].
  rewrite exact_point_value. reflexivity.
Qed.

(** ** The end-phase callback *)

(** C5.  In the three-phase shape, whatever the visitor held before, the
    faces recorded between the begin-phase of a split and its end-phase are
    exactly the faces reported in between, and the callbacks in between
    leave the mesh alone.  The end-phase callback walks the vertices of all
    the recorded faces in the mesh it is given: when it returns, each such
    vertex that carried a point carries one whose x, y and z are all exact,
    with no pending expression left and with the values it had; the faces
    are as they were; and the buffer of recorded faces is empty. *)
Theorem C5_end_phase_forces_recorded_faces_then_clears :
  ∀ (this0 : ExactLazyNumbersVisitor.fields) (tm0 : TriangleMesh)
    (f_split : face_descriptor) (gs : list face_descriptor) (mesh : TriangleMesh),
    let begun := ExactLazyNumbersVisitor.before_subface_creations f_split (this0, tm0) in
    let recorded :=
      foldl (fun st g => ExactLazyNumbersVisitor.after_subface_created g st) begun gs in
    let ended := ExactLazyNumbersVisitor.after_subface_creations (recorded.1, mesh) in
    ExactLazyNumbersVisitor.created_faces recorded.1 = gs ∧
    recorded.2 = tm0 ∧
    (∀ g v pt, g ∈ gs → v ∈ vertices_around_face g mesh →
       point mesh v = Some pt →
       ∃ pt', point ended.2 v = Some pt' ∧
              is_lazy (x pt') = false ∧ is_lazy (y pt') = false ∧
              is_lazy (z pt') = false ∧
              depth (x pt') = 0%nat ∧ depth (y pt') = 0%nat ∧
              depth (z pt') = 0%nat ∧
              point_value pt' = point_value pt) ∧
    (∀ g v, g ∈ gs → v ∈ vertices_around_face g mesh →
       is_Some (point mesh v) → vertex_is_exact ended.2 v = true) ∧
    (∀ g, g ∈ gs → vertices_around_face g ended.2 = vertices_around_face g mesh) ∧
    ExactLazyNumbersVisitor.created_faces ended.1 = [].
Proof.
  intros this0 tm0 f_split gs mesh begun recorded ended.
  assert (Hrec : ∀ l st,
    ExactLazyNumbersVisitor.created_faces
      (foldl (fun st g => ExactLazyNumbersVisitor.after_subface_created g st) st l).1
    = ExactLazyNumbersVisitor.created_faces st.1 ++ l ∧
    (foldl (fun st g => ExactLazyNumbersVisitor.after_subface_created g st) st l).2
    = st.2).
  { induction l as [|g l IH]; intros [this tm]; simpl.
    - rewrite app_nil_r. split; reflexivity.
    - destruct (IH ({| ExactLazyNumbersVisitor.split_face :=
                         ExactLazyNumbersVisitor.split_face this;
                       ExactLazyNumbersVisitor.created_faces :=
                         ExactLazyNumbersVisitor.created_faces this ++ [g] |}, tm))
        as [IH1 IH2].
      simpl in IH1, IH2. rewrite IH1, IH2, <- app_assoc. split; reflexivity. }
  destruct (Hrec gs begun) as [Hfaces Hmesh].
  fold recorded in Hfaces, Hmesh. simpl in Hfaces, Hmesh.
  assert (Hended : ended.2 = ExactLazyNumbersVisitor.exact_faces gs mesh).
  { subst ended. unfold ExactLazyNumbersVisitor.after_subface_creations.
    rewrite Hfaces. reflexivity. }
  assert (Hforced : ∀ g v, g ∈ gs → v ∈ vertices_around_face g mesh →
            point ended.2 v = exact_point <$> point mesh v).
  { intros g v Hg Hv. rewrite Hended, exact_faces_point.
    destruct (decide (v ∈ vertices_of_faces gs mesh)) as [_|Hn]; [reflexivity|].
    exfalso. apply Hn. apply elem_of_vertices_of_faces. exists g. split; assumption. }
  split; [exact Hfaces|]. split; [exact Hmesh|].
  split; [|split; [|split; [|reflexivity]]].
  - intros g v pt Hg Hv Hpt. exists (exact_point pt).
    split; [rewrite (Hforced g v Hg Hv), Hpt; reflexivity|].
    do 6 (split; [reflexivity|]). apply exact_point_value.
  - intros g v Hg Hv [pt Hpt]. unfold vertex_is_exact.
    rewrite (Hforced g v Hg Hv), Hpt. apply exact_point_is_exact.
  - intros g _. apply vertices_around_face_fverts. rewrite Hended.
    apply exact_faces_fverts.
Qed.

(** C10.  In the three-phase shape the end-phase callback forces every
    vertex of every recorded face, whether the split introduced the vertex
    or it was there before and is shared with faces the split left alone:
    a vertex that carries a point and lies on a recorded face is exact when
    the callback returns, with its coordinate values unchanged. *)
Theorem C10_end_phase_forces_every_incident_vertex :
  ∀ (this : ExactLazyNumbersVisitor.fields) (mesh : TriangleMesh)
    (fi : face_descriptor) (v : vertex_descriptor),
    fi ∈ ExactLazyNumbersVisitor.created_faces this →
    v ∈ vertices_around_face fi mesh →
    is_Some (point mesh v) →
    let ended := ExactLazyNumbersVisitor.after_subface_creations (this, mesh) in
    vertex_is_exact ended.2 v = true ∧
    point_value <$> point ended.2 v = point_value <$> point mesh v ∧
    vertices_around_face fi ended.2 = vertices_around_face fi mesh.
Proof.
  intros this mesh fi v Hfi Hv [pt Hpt] ended.
  assert (Hended : ended.2
    = ExactLazyNumbersVisitor.exact_faces (ExactLazyNumbersVisitor.created_faces this) mesh)
    by reflexivity.
  assert (Hpoint : point ended.2 v = Some (exact_point pt)).
  { rewrite Hended, exact_faces_point, Hpt.
    destruct (decide _) as [_|Hn]; [reflexivity|].
    exfalso. apply Hn. apply elem_of_vertices_of_faces. exists fi. split; assumption. }
  split; [|split].
  - unfold vertex_is_exact. rewrite Hpoint. apply exact_point_is_exact.
  - rewrite Hpoint, Hpt. simpl. rewrite exact_point_value. reflexivity.
  - apply vertices_around_face_fverts. rewrite Hended. apply exact_faces_fverts.
Qed.

(** Vertex 2 of the sample square predates the cut, is shared with the
    untouched triangle 1 and has a pending coordinate; it lies on the
    created triangle 11 and comes out exact. *)
Lemma C10_witness :
  vertex_is_exact Sample.cut_square 2 = false ∧
  2 ∈ vertices_around_face 1 Sample.cut_square ∧
  (let ended :=
     ExactLazyNumbersVisitor.after_subface_creations (Sample.recorded, Sample.cut_square) in
   vertex_is_exact ended.2 2 = true ∧
   point_value <$> point ended.2 2 = point_value <$> point Sample.cut_square 2 ∧
   vertices_around_face 11 ended.2 = vertices_around_face 11 Sample.cut_square).
Proof.
  split; [vm_compute; reflexivity|].
  split; [vm_compute; repeat constructor|].
  apply (C10_end_phase_forces_every_incident_vertex
           Sample.recorded Sample.cut_square 11 2).
  - vm_compute. repeat constructor.
  - vm_compute. repeat constructor.
  - vm_compute. eexists. reflexivity.
Defined.

(** ** Runs of the engine against the visitor *)




(** *** The one-callback shape *)

Section NewVertexShape.

Variable cfg : BuildConfig.
Hypothesis Hcfg : has_new_vertex_added cfg = true.

Let V := ExactLazyNumbersVisitor.shape_new_vertex.

Lemma notify_new_vertex_mesh s st :
  (Engine.notify cfg V s st).2
  = match s with
    | Engine.add_vertex i_id v pt =>
        ExactLazyNumbersVisitor.new_vertex_added i_id v (Engine.insert_vertex v pt st.2)
    | _ => Engine.edit s st.2
    end.
Proof.
  destruct s; simpl; [rewrite Hcfg|..]; reflexivity.
Qed.

Lemma notify_new_vertex_forces i_id v pt st :
  point (Engine.notify cfg V (Engine.add_vertex i_id v pt) st).2 v
  = Some (exact_point pt).
Proof.
  rewrite notify_new_vertex_mesh, new_vertex_added_point.
  destruct (decide (v = v)) as [_|Hn]; [|congruence].
  unfold point, Engine.insert_vertex; simpl.
  rewrite lookup_insert_eq. reflexivity.
Qed.

Lemma notify_new_vertex_keeps_exact s st v :
  vertex_is_exact st.2 v = true →
  vertex_is_exact (Engine.notify cfg V s st).2 v = true.
Proof.
  intros Hv. destruct s as [i_id u pt| | |]; try exact Hv.
  destruct (decide (u = v)) as [->|Hne].
  - unfold vertex_is_exact. rewrite notify_new_vertex_forces. reflexivity.
  - unfold vertex_is_exact in *.
    rewrite notify_new_vertex_mesh, new_vertex_added_point.
    destruct (decide (u = v)) as [?|_]; [congruence|].
    unfold point, Engine.insert_vertex in *; simpl.
    rewrite lookup_insert_ne by assumption. exact Hv.
Qed.

Lemma run_new_vertex_keeps_exact script : ∀ st v,
  vertex_is_exact st.2 v = true →
  vertex_is_exact (Engine.run cfg V script st).2 v = true.
Proof.
  induction script as [|s script IH]; intros st v Hv; [exact Hv|].
  simpl. apply IH. apply notify_new_vertex_keeps_exact. exact Hv.
Qed.

(** Every vertex the engine stores during a run is exact at its end. *)
Lemma run_new_vertex_exact script : ∀ st v,
  v ∈ Engine.new_vertices script →
  vertex_is_exact (Engine.run cfg V script st).2 v = true.
Proof.
  induction script as [|s script IH]; intros st v Hv; [inversion Hv|].
  destruct s as [i_id u pt| | |]; simpl in Hv; try (simpl; apply IH; exact Hv).
  apply elem_of_cons in Hv as [->|Hv]; [|simpl; apply IH; exact Hv].
  change (Engine.run cfg V (Engine.add_vertex i_id u pt :: script) st)
    with (Engine.run cfg V script (Engine.notify cfg V (Engine.add_vertex i_id u pt) st)).
  apply run_new_vertex_keeps_exact.
  unfold vertex_is_exact. rewrite notify_new_vertex_forces. reflexivity.
Qed.

End NewVertexShape.

(** *** The three-phase shape *)

Section ThreePhaseShape.

Variable cfg : BuildConfig.

Let V := ExactLazyNumbersVisitor.shape_three_phase.



End ThreePhaseShape.



(** ** Forcing changes representations, never the geometry *)

Lemma same_geometry_refl m : same_geometry m m.
Proof. split; reflexivity. Qed.


Lemma same_geometry_trans m1 m2 m3 :
  same_geometry m1 m2 → same_geometry m2 m3 → same_geometry m1 m3.
Proof.
  intros [Hf1 Hp1] [Hf2 Hp2]. split; [congruence|].
  intros v. rewrite Hp1. apply Hp2.
Qed.

Lemma same_geometry_insert_vertex v pt m1 m2 :
  same_geometry m1 m2 →
  same_geometry (Engine.insert_vertex v pt m1) (Engine.insert_vertex v pt m2).
Proof.
  intros [Hf Hp]. split; [exact Hf|]. intros u.
  unfold point, Engine.insert_vertex; simpl.
  destruct (decide (v = u)) as [->|Hne].
  - rewrite !lookup_insert_eq. reflexivity.
  - rewrite !lookup_insert_ne by assumption. apply Hp.
Qed.

Lemma same_geometry_insert_face fi vs m1 m2 :
  same_geometry m1 m2 →
  same_geometry (Engine.insert_face fi vs m1) (Engine.insert_face fi vs m2).
Proof.
  intros [Hf Hp]. split; [|exact Hp].
  unfold Engine.insert_face; simpl. rewrite Hf. reflexivity.
Qed.

Lemma same_geometry_edit s m1 m2 :
  same_geometry m1 m2 → same_geometry (Engine.edit s m1) (Engine.edit s m2).
Proof.
  intros H. destruct s; simpl;
    auto using same_geometry_insert_vertex, same_geometry_insert_face.
Qed.


Lemma new_vertex_added_same_geometry i_id v m :
  same_geometry (ExactLazyNumbersVisitor.new_vertex_added i_id v m) m.
Proof.
  split; [reflexivity|]. intros u. rewrite new_vertex_added_point.
  destruct (decide (v = u)); [|reflexivity].
  destruct (point m u) as [pt|]; simpl; [|reflexivity].
  rewrite exact_point_value. reflexivity.
Qed.

Lemma notify_new_vertex_same_geometry cfg s st :
  same_geometry
    (Engine.notify cfg ExactLazyNumbersVisitor.shape_new_vertex s st).2
    (Engine.edit s st.2).
Proof.
  destruct s as [i_id v pt| | |]; simpl; try apply same_geometry_refl.
  destruct (has_new_vertex_added cfg); simpl.
  - apply new_vertex_added_same_geometry.
  - apply same_geometry_refl.
Qed.

Lemma notify_three_phase_same_geometry cfg s st :
  same_geometry
    (Engine.notify cfg ExactLazyNumbersVisitor.shape_three_phase s st).2
    (Engine.edit s st.2).
Proof.
  destruct st as [this tm].
  destruct s as [i_id v pt| | |]; simpl; try apply same_geometry_refl.
  - destruct (has_new_vertex_added cfg); apply same_geometry_refl.
  - apply exact_faces_same_geometry.
Qed.

Lemma run_same_geometry cfg V :
  (∀ s st, same_geometry (Engine.notify cfg V s st).2 (Engine.edit s st.2)) →
  ∀ script st tm0,
    same_geometry st.2 tm0 →
    same_geometry (Engine.run cfg V script st).2 (Engine.edits script tm0).
Proof.
  intros Hstep. induction script as [|s script IH]; intros st tm0 H; [exact H|].
  simpl. apply IH. eapply same_geometry_trans; [apply Hstep|].
  apply same_geometry_edit. exact H.
Qed.

Lemma visit_exact_same_geometry cfg script tm :
  same_geometry (visit_exact cfg script tm) (Engine.edits script tm).
Proof.
  unfold visit_exact. destruct (has_new_vertex_added cfg).
  - apply (run_same_geometry cfg ExactLazyNumbersVisitor.shape_new_vertex
             (notify_new_vertex_same_geometry cfg) script (tt, tm) tm).
    apply same_geometry_refl.
  - apply (run_same_geometry cfg ExactLazyNumbersVisitor.shape_three_phase
             (notify_three_phase_same_geometry cfg) script
             (ExactLazyNumbersVisitor.init, tm) tm).
    apply same_geometry_refl.
Qed.




(** *** The combined coordinator *)

Section Coordinator.

Variable cfg : BuildConfig.

Let V := CorefinementVisitor.visitor.






End Coordinator.









(** ** Exactness under the forcing policy *)




(** ** The two shapes of the split-event model *)




(** ** The drivers *)

Ltac run_driver :=
  unfold run, driver, corefineAndComputeUnion, corefineAndComputeIntersection,
    corefineAndComputeDifference; simpl.

Ltac step_callee :=
  match goal with
  | |- context [engine ?cs ?op ?ps ?w] =>
      let result := fresh "result" in
      let w1 := fresh "w1" in
      destruct (engine cs op ps w) as [result w1]; simpl
  | |- context [remesh ?cs ?v ?w] =>
      let complete := fresh "complete" in
      let w2 := fresh "w2" in
      destruct (remesh cs v w) as [complete w2]; simpl
  end.

(** C1.  A driver call reads the two toggles and then does exactly what the
    configuration they resolve to prescribes: with neither toggle, the
    engine's entry point for the operation with no visitor; with
    ForceExactNumbers only, the same with [ExactLazyNumbersVisitor] and
    nothing else; with RemeshAfterSplit only, the same with the
    coordinator constructed with exactness-forcing off, then its remesh
    pass; with both, the same with one coordinator constructed with
    exactness-forcing on, then its remesh pass after the engine has
    returned.  The driver returns what the engine returned. *)
Theorem C1_driver_resolves_four_configurations :
  ∀ (W : Type) (cs : Callees W) (op : Operation) (w : W),
    let remesh_on := feature_enabled cs ExperimentalFastCsgRemesh w in
    let exact_on := feature_enabled cs ExperimentalFastCsgExactCorefinementCallback w in
    let c := resolve exact_on remesh_on in
    let reads := [ev_is_enabled ExperimentalFastCsgRemesh remesh_on;
                  ev_is_enabled ExperimentalFastCsgExactCorefinementCallback exact_on] in
    let called := engine cs op (engine_params c) w in
    run cs (driver op) w
    = match remesh_visitor c with
      | None =>
          mkOutcome called.1 called.2
            (reads ++ [ev_corefine op (engine_params c) called.1])
      | Some visitor =>
          let passed := remesh cs visitor called.2 in
          mkOutcome called.1 passed.2
            (reads ++ [ev_corefine op (engine_params c) called.1;
                       ev_remeshSplitFaces visitor passed.1])
      end.
Proof.
  intros W cs op w. destruct op; run_driver;
    destruct (feature_enabled cs ExperimentalFastCsgRemesh w),
             (feature_enabled cs ExperimentalFastCsgExactCorefinementCallback w);
    simpl; repeat step_callee; reflexivity.
Qed.

(** C3 (as the code has it).  With RemeshAfterSplit enabled, a driver call
    runs the remesh pass exactly once, right after the engine call returns,
    whether the engine returned success or failure; it then returns the
    engine's result. *)
Theorem C3_remesh_follows_engine_whatever_its_result :
  ∀ (W : Type) (cs : Callees W) (op : Operation) (w : W),
    feature_enabled cs ExperimentalFastCsgRemesh w = true →
    let exact_on := feature_enabled cs ExperimentalFastCsgExactCorefinementCallback w in
    let visitor := CorefinementVisitor_param exact_on in
    let called := engine cs op [visitor; visitor; visitor] w in
    let passed := remesh cs visitor called.2 in
    let o := run cs (driver op) w in
    log o = [ev_is_enabled ExperimentalFastCsgRemesh true;
             ev_is_enabled ExperimentalFastCsgExactCorefinementCallback exact_on;
             ev_corefine op [visitor; visitor; visitor] called.1;
             ev_remeshSplitFaces visitor passed.1] ∧
    world o = passed.2 ∧
    returned o = called.1.
Proof.
  intros W cs op w Hremesh. destruct op; run_driver; rewrite Hremesh;
    destruct (feature_enabled cs ExperimentalFastCsgExactCorefinementCallback w);
    simpl; repeat step_callee; repeat split; reflexivity.
Qed.

(** C4 (as the code has it).  With RemeshAfterSplit enabled, a driver call
    returns the engine's result unchanged: what the remesh pass does or
    reports has no bearing on the returned value. *)
Theorem C4_driver_returns_engine_result :
  ∀ (W : Type) (cs : Callees W) (op : Operation) (w : W)
    (other_remesh : visitor_param → W → bool * W),
    feature_enabled cs ExperimentalFastCsgRemesh w = true →
    let exact_on := feature_enabled cs ExperimentalFastCsgExactCorefinementCallback w in
    let visitor := CorefinementVisitor_param exact_on in
    let cs' := {| feature_enabled := feature_enabled cs;
                  engine := engine cs;
                  remesh := other_remesh |} in
    returned (run cs (driver op) w) = (engine cs op [visitor; visitor; visitor] w).1 ∧
    returned (run cs' (driver op) w) = returned (run cs (driver op) w).
Proof.
  intros W cs op w other_remesh Hremesh. destruct op; run_driver; rewrite Hremesh;
    destruct (feature_enabled cs ExperimentalFastCsgExactCorefinementCallback w);
    simpl; step_callee;
    match goal with
    | |- context [other_remesh ?v ?w] => destruct (other_remesh v w)
    end; step_callee; split; reflexivity.
Qed.

(** C8.  A driver call starts with one read of ExperimentalFastCsgRemesh and
    one read of ExperimentalFastCsgExactCorefinementCallback, both made in
    the world as it is when the call starts and before the engine is
    called; the rest of the driver contains no read at all, whatever the
    callees answer, so the log holds exactly one read of each toggle, and
    the whole outcome is the one obtained with the feature table frozen at
    the start of the call, even when the callees change the table. *)
Theorem C8_toggles_read_once_at_call_start :
  ∀ (W : Type) (cs : Callees W) (op : Operation) (w : W),
    let o := run cs (driver op) w in
    let remesh_on := feature_enabled cs ExperimentalFastCsgRemesh w in
    let exact_on := feature_enabled cs ExperimentalFastCsgExactCorefinementCallback w in
    (∃ body : bool → bool → Prog bool,
        driver op
        = Do (is_enabled ExperimentalFastCsgRemesh) (fun remesh =>
          Do (is_enabled ExperimentalFastCsgExactCorefinementCallback) (fun exactCallback =>
          body remesh exactCallback)) ∧
        ∀ remesh exactCallback, no_feature_read (body remesh exactCallback)) ∧
    (∃ params result rest,
        log o = [ev_is_enabled ExperimentalFastCsgRemesh remesh_on;
                 ev_is_enabled ExperimentalFastCsgExactCorefinementCallback exact_on;
                 ev_corefine op params result] ++ rest ∧
        forallb is_remesh rest = true) ∧
    count_reads ExperimentalFastCsgRemesh (log o) = 1%nat ∧
    count_reads ExperimentalFastCsgExactCorefinementCallback (log o) = 1%nat ∧
    o = run (frozen_at cs w) (driver op) w.
Proof.
  intros W cs op w o remesh_on exact_on. split; [|split].
  - destruct op;
      (eexists (fun remesh exactCallback =>
                  if exactCallback && negb remesh then _
                  else if remesh then _ else _);
       split; [reflexivity|];
       intros [|] [|]; simpl; repeat (constructor; intros)).
  - subst o remesh_on exact_on. destruct op; run_driver;
      destruct (feature_enabled cs ExperimentalFastCsgRemesh w),
               (feature_enabled cs ExperimentalFastCsgExactCorefinementCallback w);
      simpl; repeat step_callee; do 3 eexists; (split; [reflexivity|reflexivity]).
  - subst o remesh_on exact_on. destruct op; run_driver;
      destruct (feature_enabled cs ExperimentalFastCsgRemesh w),
               (feature_enabled cs ExperimentalFastCsgExactCorefinementCallback w);
      simpl; repeat step_callee; repeat split; reflexivity.
Qed.

(** The engine fails on the sample cut and the remesh pass still runs: the
    log shows it after the failed engine call, and the triangles 10, 11
    and 12 that the engine left in the output mesh have been replaced. *)
Lemma C3_counterexample :
  let cs := Sample.callees (Sample.setup false Sample.fan) in
  let w := Sample.start true false in
  let visitor := CorefinementVisitor_param false in
  let called := engine cs Union [visitor; visitor; visitor] w in
  let o := run cs corefineAndComputeUnion w in
  called.1 = false ∧
  returned o = false ∧
  log o = [ev_is_enabled ExperimentalFastCsgRemesh true;
           ev_is_enabled ExperimentalFastCsgExactCorefinementCallback false;
           ev_corefine Union [visitor; visitor; visitor] false;
           ev_remeshSplitFaces visitor true] ∧
  existsb is_remesh (log o) = true ∧
  fverts (Sample.out called.2) !! 10 = Some [0; 1; 4] ∧
  fverts (Sample.out (world o)) !! 10 = None ∧
  fverts (Sample.out (world o)) !! 2 = Some [4; 0; 1].
Proof. vm_compute. repeat split; reflexivity. Qed.

Lemma C3_witness :
  let cs := Sample.callees (Sample.setup false Sample.fan) in
  let w := Sample.start true true in
  let exact_on := feature_enabled cs ExperimentalFastCsgExactCorefinementCallback w in
  let visitor := CorefinementVisitor_param exact_on in
  let called := engine cs Difference [visitor; visitor; visitor] w in
  let passed := remesh cs visitor called.2 in
  let o := run cs (driver Difference) w in
  log o = [ev_is_enabled ExperimentalFastCsgRemesh true;
           ev_is_enabled ExperimentalFastCsgExactCorefinementCallback exact_on;
           ev_corefine Difference [visitor; visitor; visitor] called.1;
           ev_remeshSplitFaces visitor passed.1] ∧
  world o = passed.2 ∧
  returned o = called.1.
Proof.
  apply (C3_remesh_follows_engine_whatever_its_result
           Sample.World (Sample.callees (Sample.setup false Sample.fan))
           Difference (Sample.start true true)).
  vm_compute. reflexivity.
Defined.

(** The engine succeeds on the sample cut, the remesh pass cannot
    re-triangulate the recorded region and says so, and the driver returns
    true all the same, with the region left as the engine cut it. *)
Lemma C4_counterexample :
  let cs := Sample.callees (Sample.setup true Sample.refuse_everywhere) in
  let w := Sample.start true true in
  let visitor := CorefinementVisitor_param true in
  let called := engine cs Union [visitor; visitor; visitor] w in
  let o := run cs corefineAndComputeUnion w in
  Sample.coordinator called.2
  = Some {| CorefinementVisitor.exactCallback := true;
            CorefinementVisitor.split_face := Some 0;
            CorefinementVisitor.created_faces := [];
            CorefinementVisitor.regions := [(0, [10; 11; 12])] |} ∧
  (remesh cs visitor called.2).1 = false ∧
  log o = [ev_is_enabled ExperimentalFastCsgRemesh true;
           ev_is_enabled ExperimentalFastCsgExactCorefinementCallback true;
           ev_corefine Union [visitor; visitor; visitor] true;
           ev_remeshSplitFaces visitor false] ∧
  fverts (Sample.out (world o)) !! 10 = Some [0; 1; 4] ∧
  returned o = true.
Proof. vm_compute. repeat split; reflexivity. Qed.

Lemma C4_witness :
  let cs := Sample.callees (Sample.setup true Sample.fan) in
  let w := Sample.start true false in
  let exact_on := feature_enabled cs ExperimentalFastCsgExactCorefinementCallback w in
  let visitor := CorefinementVisitor_param exact_on in
  let cs' := {| feature_enabled := feature_enabled cs;
                engine := engine cs;
                remesh := fun _ w' => (false, w') |} in
  returned (run cs (driver Intersection) w)
  = (engine cs Intersection [visitor; visitor; visitor] w).1 ∧
  returned (run cs' (driver Intersection) w) = returned (run cs (driver Intersection) w).
Proof.
  apply (C4_driver_returns_engine_result
           Sample.World (Sample.callees (Sample.setup true Sample.fan))
           Intersection (Sample.start true false) (fun _ w' => (false, w'))).
  vm_compute. reflexivity.
Defined.

(** ** The remesh pass *)

Lemma next_face_above tm fi :
  is_Some (fverts tm !! fi) → fi < CorefinementVisitor.next_face tm.
Proof.
  unfold CorefinementVisitor.next_face. revert fi.
  apply (map_fold_weak_ind
           (fun acc (m : gmap N (list N)) => ∀ fi, is_Some (m !! fi) → fi < acc)).
  - intros fi [vs Hvs]. rewrite lookup_empty in Hvs. discriminate.
  - intros fj vs m acc _ IH fi Hfi.
    destruct (decide (fj = fi)) as [->|Hne].
    + lia.
    + rewrite lookup_insert_ne in Hfi by assumption.
      specialize (IH fi Hfi). lia.
Qed.

Lemma add_faces_vpoint tris : ∀ tm,
  vpoint (CorefinementVisitor.add_faces tris tm) = vpoint tm.
Proof.
  induction tris as [|t tris IH]; intros tm; [reflexivity|].
  simpl. rewrite IH. reflexivity.
Qed.

Lemma add_faces_keeps tris : ∀ tm fi vs,
  fverts tm !! fi = Some vs →
  fverts (CorefinementVisitor.add_faces tris tm) !! fi = Some vs.
Proof.
  induction tris as [|t tris IH]; intros tm fi vs Hfi; [exact Hfi|].
  simpl. apply IH. unfold Engine.insert_face; simpl.
  rewrite lookup_insert_ne; [exact Hfi|].
  intros Heq. pose proof (next_face_above tm fi) as Hlt.
  rewrite Hfi in Hlt. specialize (Hlt (ltac:(eexists; reflexivity))). lia.
Qed.

Lemma remove_faces_vpoint region : ∀ tm,
  vpoint (CorefinementVisitor.remove_faces region tm) = vpoint tm.
Proof.
  induction region as [|fj region IH]; intros tm; [reflexivity|].
  simpl. rewrite IH. reflexivity.
Qed.

Lemma remove_faces_keeps region : ∀ tm fi,
  existsb (N.eqb fi) region = false →
  fverts (CorefinementVisitor.remove_faces region tm) !! fi = fverts tm !! fi.
Proof.
  induction region as [|fj region IH]; intros tm fi Hout; [reflexivity|].
  simpl in Hout. apply orb_false_iff in Hout as [Hne Hout].
  apply N.eqb_neq in Hne.
  simpl. rewrite IH by assumption. simpl.
  apply lookup_delete_ne. congruence.
Qed.

Lemma remesh_region_frame retriangulate region acc fi vs :
  existsb (N.eqb fi) region = false →
  fverts acc.2 !! fi = Some vs →
  let acc' := CorefinementVisitor.remesh_region retriangulate region acc in
  fverts acc'.2 !! fi = Some vs ∧ vpoint acc'.2 = vpoint acc.2.
Proof.
  intros Hout Hfi. destruct acc as [complete tm]. simpl in *.
  unfold CorefinementVisitor.remesh_region.
  destruct (retriangulate tm region) as [tris|]; simpl.
  - split.
    + apply add_faces_keeps. rewrite remove_faces_keeps by assumption. exact Hfi.
    + rewrite add_faces_vpoint. apply remove_faces_vpoint.
  - split; [exact Hfi|reflexivity].
Qed.

Lemma remesh_regions_frame retriangulate rs : ∀ acc fi vs,
  existsb (fun r => existsb (N.eqb fi) r.2) rs = false →
  fverts acc.2 !! fi = Some vs →
  let acc' := CorefinementVisitor.remesh_regions retriangulate rs acc in
  fverts acc'.2 !! fi = Some vs ∧ vpoint acc'.2 = vpoint acc.2.
Proof.
  induction rs as [|[f_split region] rs IH]; intros acc fi vs Hout Hfi.
  - split; [exact Hfi|reflexivity].
  - simpl in Hout. apply orb_false_iff in Hout as [Hregion Hout].
    destruct (remesh_region_frame retriangulate region acc fi vs Hregion Hfi)
      as [Hfi' Hpts].
    destruct (IH (CorefinementVisitor.remesh_region retriangulate region acc)
                 fi vs Hout Hfi') as [Hfi'' Hpts'].
    simpl. split; [exact Hfi''|]. rewrite Hpts'. exact Hpts.
Qed.

(** C7.  Whatever the re-triangulation of a region yields, a face of the
    mesh that lies in no recorded region has, after the remesh pass, the
    same vertex descriptors in the same order as before, and every vertex
    of the mesh keeps its point as it was, representation included. *)
Theorem C7_remesh_leaves_outside_faces_untouched :
  ∀ (retriangulate : CorefinementVisitor.Retriangulate)
    (this : CorefinementVisitor.fields) (tm : TriangleMesh)
    (fi : face_descriptor) (vs : list vertex_descriptor),
    fverts tm !! fi = Some vs →
    CorefinementVisitor.in_region this fi = false →
    let tm' := (CorefinementVisitor.remeshSplitFaces retriangulate this tm).2 in
    fverts tm' !! fi = Some vs ∧
    (∀ v, v ∈ vs → point tm' v = point tm v) ∧
    vpoint tm' = vpoint tm.
Proof.
  intros retriangulate this tm fi vs Hfi Hout tm'.
  destruct (remesh_regions_frame retriangulate (CorefinementVisitor.regions this)
              (true, tm) fi vs Hout Hfi) as [Hfi' Hpts].
  subst tm'. unfold CorefinementVisitor.remeshSplitFaces.
  split; [exact Hfi'|]. split; [|exact Hpts].
  intros v _. unfold point. rewrite Hpts. reflexivity.
Qed.

(** Triangle 1 of the sample square is outside the region recorded for the
    cut of triangle 0 and comes through the fan re-triangulation as it
    was, while triangle 10 of the region is gone. *)
Lemma C7_witness :
  let tm' := (CorefinementVisitor.remeshSplitFaces Sample.fan
                Sample.coordinator_after_cut Sample.cut_square).2 in
  fverts tm' !! 10 = None ∧
  fverts tm' !! 1 = Some [0; 2; 3] ∧
  (∀ v, v ∈ [0; 2; 3] → point tm' v = point Sample.cut_square v) ∧
  vpoint tm' = vpoint Sample.cut_square.
Proof.
  split; [vm_compute; reflexivity|].
  apply (C7_remesh_leaves_outside_faces_untouched
           Sample.fan Sample.coordinator_after_cut Sample.cut_square 1 [0; 2; 3]).
  - vm_compute. reflexivity.
  - vm_compute. reflexivity.
Defined.

(** * Further properties of the corefinement visitor *)

Lemma run_default_visitor cfg script : ∀ st,
  (Engine.run cfg Corefinement.Default_visitor script st).2
  = Engine.edits script st.2.
Proof.
  induction script as [|s script IH]; intros st; [reflexivity|].
  cbn [Engine.run Engine.edits]. rewrite IH. f_equal.
  destruct s; simpl; try reflexivity.
  destruct (has_new_vertex_added cfg); reflexivity.
Qed.

Lemma run_three_phase_without_end cfg script : ∀ this tm,
  forallb (fun s => match s with Engine.end_split => false | _ => true end) script
  = true →
  (Engine.run cfg ExactLazyNumbersVisitor.shape_three_phase script (this, tm)).2
  = Engine.edits script tm.
Proof.
  induction script as [|s script IH]; intros this tm Hno; [reflexivity|].
  cbn [forallb] in Hno. apply andb_true_iff in Hno as [Hs Hno].
  destruct s as [i_id v pt|f_split|fi vs|]; try discriminate.
  - replace (Engine.run cfg ExactLazyNumbersVisitor.shape_three_phase
               (Engine.add_vertex i_id v pt :: script) (this, tm))
      with (Engine.run cfg ExactLazyNumbersVisitor.shape_three_phase script
              (this, Engine.insert_vertex v pt tm))
      by (simpl; destruct (has_new_vertex_added cfg); reflexivity).
    apply IH. exact Hno.
  - simpl. apply IH. exact Hno.
  - simpl. apply IH. exact Hno.
Qed.

(** X1.  With a kernel that has the per-vertex callback, at the end of
    any sequence of engine steps every vertex the engine stored during the
    sequence is exact, however many steps came after it was stored. *)
Theorem X1_every_new_vertex_exact_at_end_of_run :
  ∀ (cfg : BuildConfig) (script : list Engine.step) (tm : TriangleMesh)
    (v : vertex_descriptor),
    has_new_vertex_added cfg = true →
    v ∈ Engine.new_vertices script →
    vertex_is_exact (visit_exact cfg script tm) v = true.
Proof.
  intros cfg script tm v Hcfg Hv. unfold visit_exact. rewrite Hcfg.
  apply run_new_vertex_exact; assumption.
Qed.

Lemma X1_witness :
  vertex_is_exact (visit_exact Sample.cgal_5_5 Sample.split_script Sample.square) 4
  = true.
Proof.
  apply (X1_every_new_vertex_exact_at_end_of_run
           Sample.cgal_5_5 Sample.split_script Sample.square 4).
  - vm_compute. reflexivity.
  - vm_compute. repeat constructor.
Defined.

(** X2.  Attaching [ExactLazyNumbersVisitor] never changes what the
    engine builds: for any build and any sequence of engine steps, the
    mesh refined under the visitor has the same faces, the same vertices
    and the same coordinate values as the mesh refined with no visitor. *)
Theorem X2_visitor_never_changes_the_geometry :
  ∀ (cfg : BuildConfig) (script : list Engine.step) (tm : TriangleMesh),
    same_geometry (visit_exact cfg script tm) (visit_none cfg script tm).
Proof.
  intros cfg script tm. unfold visit_none. rewrite run_default_visitor.
  apply visit_exact_same_geometry.
Qed.

(** X3.  In the three-phase shape nothing is forced before an end-phase:
    over a sequence of engine steps that closes no split, the mesh refined
    under the visitor is the very mesh refined with no visitor, pending
    expressions included. *)
Theorem X3_three_phase_forces_only_at_end_phase :
  ∀ (cfg : BuildConfig) (script : list Engine.step) (tm : TriangleMesh),
    has_new_vertex_added cfg = false →
    forallb (fun s => match s with Engine.end_split => false | _ => true end) script
    = true →
    visit_exact cfg script tm = visit_none cfg script tm.
Proof.
  intros cfg script tm Hcfg Hno. unfold visit_exact, visit_none.
  rewrite Hcfg, run_default_visitor. apply run_three_phase_without_end. exact Hno.
Qed.

Lemma X3_witness :
  visit_exact Sample.cgal_5_3 (Engine.begin_split 0 :: Sample.split_body) Sample.square
  = visit_none Sample.cgal_5_3 (Engine.begin_split 0 :: Sample.split_body) Sample.square.
Proof.
  apply (X3_three_phase_forces_only_at_end_phase
           Sample.cgal_5_3 (Engine.begin_split 0 :: Sample.split_body) Sample.square);
    vm_compute; reflexivity.
Defined.

(** X4.  Neither callback that forces coordinates adds or removes a
    vertex or deepens a pending expression: after [new_vertex_added] and
    after [after_subface_creations] every vertex that had a point still
    has one, no other vertex has one, and the pending depth of each point
    is at most what it was. *)
Theorem X4_callbacks_never_deepen_pending_expressions :
  ∀ (i_id : N) (v : vertex_descriptor) (this : ExactLazyNumbersVisitor.fields)
    (mesh : TriangleMesh) (u : vertex_descriptor),
    let m1 := ExactLazyNumbersVisitor.new_vertex_added i_id v mesh in
    let m2 := (ExactLazyNumbersVisitor.after_subface_creations (this, mesh)).2 in
    (is_Some (point m1 u) ↔ is_Some (point mesh u)) ∧
    (is_Some (point m2 u) ↔ is_Some (point mesh u)) ∧
    (from_option point_depth 0 (point m1 u)
     ≤ from_option point_depth 0 (point mesh u))%nat ∧
    (from_option point_depth 0 (point m2 u)
     ≤ from_option point_depth 0 (point mesh u))%nat.
Proof.
  intros i_id v this mesh u m1 m2.
  assert (H1 : point m1 u = point mesh u ∨ point m1 u = exact_point <$> point mesh u).
  { subst m1. rewrite new_vertex_added_point. destruct (decide (v = u)); auto. }
  assert (H2 : point m2 u = point mesh u ∨ point m2 u = exact_point <$> point mesh u).
  { subst m2. cbn [ExactLazyNumbersVisitor.after_subface_creations snd].
    rewrite exact_faces_point. destruct (decide _); auto. }
  clearbody m1 m2.
  destruct H1 as [-> | ->], H2 as [-> | ->];
    destruct (point mesh u) as [pt|]; cbn [fmap option_fmap option_map from_option];
    rewrite ?exact_point_depth;
    (split; [|split; [|split]]);
    first [ lia | split; intros H; first [exact H | eexists; reflexivity] ].
Qed.

(** * Properties of the colour schemes *)

(** ** Colour strings *)

Module ColorMapFacts.

Import ColorMap ColorMapTerms.

Local Open Scope Z_scope.

Lemma hex_digit_range c d : hex_digit c = Some d → 0 ≤ d < 16.
Proof.
  unfold hex_digit. generalize (Z.of_N (N_of_ascii c)). intros n.
  destruct ((48 <=? n) && (n <=? 57)) eqn:Ea.
  { apply andb_true_iff in Ea as [?%Z.leb_le ?%Z.leb_le]. intros [= <-]. lia. }
  destruct ((97 <=? n) && (n <=? 102)) eqn:Eb.
  { apply andb_true_iff in Eb as [?%Z.leb_le ?%Z.leb_le]. intros [= <-]. lia. }
  destruct ((65 <=? n) && (n <=? 70)) eqn:Ec; [|discriminate].
  apply andb_true_iff in Ec as [?%Z.leb_le ?%Z.leb_le]. intros [= <-]. lia.
Qed.

Lemma hex_digit_not_space c d : hex_digit c = Some d → isspace c = false.
Proof.
  unfold hex_digit, isspace. generalize (Z.of_N (N_of_ascii c)). intros n H.
  destruct (n =? 32) eqn:E1.
  { apply Z.eqb_eq in E1. subst n. discriminate. }
  destruct ((9 <=? n) && (n <=? 13)) eqn:E2; [|reflexivity].
  apply andb_true_iff in E2 as [?%Z.leb_le ?%Z.leb_le].
  destruct ((48 <=? n) && (n <=? 57)) eqn:Ea.
  { apply andb_true_iff in Ea as [?%Z.leb_le ?%Z.leb_le]. lia. }
  destruct ((97 <=? n) && (n <=? 102)) eqn:Eb.
  { apply andb_true_iff in Eb as [?%Z.leb_le ?%Z.leb_le]. lia. }
  destruct ((65 <=? n) && (n <=? 70)) eqn:Ec; [|discriminate].
  apply andb_true_iff in Ec as [?%Z.leb_le ?%Z.leb_le]. lia.
Qed.

Lemma hex_digit_not_char c d (k : ascii) :
  hex_digit k = None → hex_digit c = Some d → Ascii.eqb c k = false.
Proof.
  intros Hk Hc. destruct (Ascii.eqb_spec c k) as [->|]; [congruence|reflexivity].
Qed.

Lemma hex_digit_not_x c d : hex_digit c = Some d → is_x c = false.
Proof.
  intros H. unfold is_x.
  rewrite (hex_digit_not_char c d "x"%char), (hex_digit_not_char c d "X"%char);
    auto.
Qed.

(** A string that starts with a hexadecimal digit, and not with the
    prefix ["0x"], is read from its first character on. *)
Lemma strtol_16_digits c d s :
  hex_digit c = Some d →
  skip_0x (String c s) = String c s →
  strtol_16 (String c s) = strtol_digits 0 (String c s).
Proof.
  intros Hc Hx. unfold strtol_16. simpl skip_spaces.
  rewrite (hex_digit_not_space c d Hc).
  rewrite (hex_digit_not_char c d "-"%char), (hex_digit_not_char c d "+"%char);
    auto.
  rewrite Hx. reflexivity.
Qed.

Lemma skip_0x_digit c c1 d1 s :
  hex_digit c1 = Some d1 → skip_0x (String c (String c1 s)) = String c (String c1 s).
Proof.
  intros H. unfold skip_0x. rewrite (hex_digit_not_x c1 d1 H), andb_false_r.
  reflexivity.
Qed.

Lemma strtol_digits_bounds s : ∀ acc,
  0 ≤ acc →
  acc ≤ strtol_digits acc s < (acc + 1) * 16 ^ Z.of_nat (String.length s).
Proof.
  induction s as [|c s IH]; intros acc Hacc.
  - simpl. lia.
  - cbn [strtol_digits String.length].
    rewrite Nat2Z.inj_succ, Z.pow_succ_r by lia.
    assert (0 < 16 ^ Z.of_nat (String.length s)) by (apply Z.pow_pos_nonneg; lia).
    destruct (hex_digit c) as [d|] eqn:Hc.
    + apply hex_digit_range in Hc.
      specialize (IH (acc * 16 + d) ltac:(lia)). nia.
    + nia.
Qed.

Lemma skip_spaces_length s :
  (String.length (skip_spaces s) ≤ String.length s)%nat.
Proof.
  induction s as [|c s IH]; simpl; [lia|].
  destruct (isspace c); simpl; lia.
Qed.

Lemma skip_0x_length s : (String.length (skip_0x s) ≤ String.length s)%nat.
Proof.
  destruct s as [|c0 [|c1 s]]; simpl; try lia.
  destruct (Ascii.eqb c0 "0"%char && is_x c1); simpl; lia.
Qed.

Lemma strtol_digits_0_bounds s n :
  (String.length s ≤ n)%nat → 0 ≤ strtol_digits 0 s < 16 ^ Z.of_nat n.
Proof.
  intros Hlen. pose proof (strtol_digits_bounds s 0 ltac:(lia)) as H.
  assert (16 ^ Z.of_nat (String.length s) ≤ 16 ^ Z.of_nat n)
    by (apply Z.pow_le_mono_r; lia).
  lia.
Qed.

Lemma strtol_16_bounds s :
  - 16 ^ Z.of_nat (String.length s) < strtol_16 s < 16 ^ Z.of_nat (String.length s).
Proof.
  unfold strtol_16. pose proof (skip_spaces_length s) as Hs.
  assert (0 < 16 ^ Z.of_nat (String.length s)) by (apply Z.pow_pos_nonneg; lia).
  destruct (skip_spaces s) as [|c s'] eqn:E; [lia|].
  simpl in Hs.
  pose proof (skip_0x_length s') as H1.
  pose proof (skip_0x_length (String c s')) as H2. simpl in H2.
  pose proof (strtol_digits_0_bounds (skip_0x s') (String.length s) ltac:(lia)).
  pose proof (strtol_digits_0_bounds (skip_0x (String c s')) (String.length s)
                ltac:(simpl; lia)).
  destruct (Ascii.eqb c "-"%char); [lia|].
  destruct (Ascii.eqb c "+"%char); lia.
Qed.

Lemma land_255 v : Z.land v 255 = v mod 256.
Proof. change 255 with (Z.ones 8). rewrite Z.land_ones by lia. reflexivity. Qed.

Lemma color_components_spec color :
  color_components color
  = let val := to_unsigned_int (strtol_16 (substr_1 color)) in
    ((val / 65536) mod 256, (val / 256) mod 256, val mod 256).
Proof.
  unfold color_components. cbv zeta. rewrite !land_255, !Z.shiftr_div_pow2 by lia.
  reflexivity.
Qed.

Lemma well_formed_color_inv color :
  well_formed_color color = true →
  ∃ s, color = String "#"%char s ∧ String.length s = 6%nat.
Proof.
  unfold well_formed_color. intros [Hlen Hhash]%andb_true_iff.
  apply Nat.eqb_eq in Hlen. destruct color as [|c s]; [discriminate|].
  simpl in Hhash. apply Ascii.eqb_eq in Hhash. subst c.
  exists s. split; [reflexivity|]. simpl in Hlen. lia.
Qed.

Lemma strtol_digits_stops ds : ∀ acc c rest,
  all_hex ds = true → hex_digit c = None →
  strtol_digits acc (String.append ds (String c rest)) = strtol_digits acc ds.
Proof.
  induction ds as [|d ds IH]; intros acc c rest Hds Hc; simpl.
  - rewrite Hc. reflexivity.
  - simpl in Hds. destruct (hex_digit d); [|discriminate]. apply IH; assumption.
Qed.

Lemma string_length_append s1 s2 :
  String.length (String.append s1 s2) = (String.length s1 + String.length s2)%nat.
Proof. induction s1 as [|c s1 IH]; simpl; [reflexivity|]. rewrite IH. reflexivity. Qed.

Lemma to_unsigned_int_small v : 0 ≤ v < 2 ^ 32 → to_unsigned_int v = v.
Proof. intros H. unfold to_unsigned_int. apply Z.mod_small. exact H. Qed.

(** X6.  A colour written as a hash and six hexadecimal digits, in either
    case, is read pairwise: the first two digits are the red component, the
    next two the green one and the last two the blue one. *)
Theorem X6_six_hex_digits_read_pairwise :
  ∀ (c1 c2 c3 c4 c5 c6 : ascii) (d1 d2 d3 d4 d5 d6 : Z),
    hex_digit c1 = Some d1 → hex_digit c2 = Some d2 → hex_digit c3 = Some d3 →
    hex_digit c4 = Some d4 → hex_digit c5 = Some d5 → hex_digit c6 = Some d6 →
    let color :=
      String "#"%char
        (String c1 (String c2 (String c3 (String c4 (String c5 (String c6 ""))))))
    in
    well_formed_color color = true ∧
    color_components color = (16 * d1 + d2, 16 * d3 + d4, 16 * d5 + d6).
Proof.
  intros c1 c2 c3 c4 c5 c6 d1 d2 d3 d4 d5 d6 H1 H2 H3 H4 H5 H6 color.
  split; [reflexivity|].
  rewrite color_components_spec. subst color. cbn [substr_1].
  rewrite (strtol_16_digits c1 d1) by (auto; eapply skip_0x_digit; eauto).
  cbn [strtol_digits]. rewrite H1, H2, H3, H4, H5, H6.
  apply hex_digit_range in H1, H2, H3, H4, H5, H6.
  cbv zeta. rewrite to_unsigned_int_small by lia.
  repeat f_equal; Z.div_mod_to_equations; lia.
Qed.

Lemma X6_witness :
  well_formed_color "#f9D72c" = true ∧
  color_components "#f9D72c" = (16 * 15 + 9, 16 * 13 + 7, 16 * 2 + 12).
Proof.
  apply (X6_six_hex_digits_read_pairwise
           "f" "9" "D" "7" "2" "c" 15 9 13 7 2 12); reflexivity.
Defined.

(** X7.  When the characters after the hash begin with a hexadecimal
    digit, and not with the prefix ["0x"] or ["0X"], [addColor] accepts the
    string although a later character is no digit: reading stops at the
    first character that is not a hexadecimal digit, and the digits before
    it are taken as the low end of the number, padded with zeros on the
    left, whatever follows them.  (Strings that begin with white space, a
    sign or the prefix are read by the other rules of [strtol] and are not
    spoken of here.) *)
Theorem X7_reading_stops_at_first_stray_character :
  ∀ (ds : string) (c : ascii) (rest : string),
    all_hex ds = true → ds ≠ "" → hex_digit c = None →
    (ds = "0" → is_x c = false) →
    String.length (String.append ds (String c rest)) = 6%nat →
    let color := String "#"%char (String.append ds (String c rest)) in
    let v := strtol_digits 0 ds in
    well_formed_color color = true ∧
    0 ≤ v < 16 ^ 5 ∧
    color_components color = ((v / 65536) mod 256, (v / 256) mod 256, v mod 256).
Proof.
  intros ds c rest Hds Hne Hc Hx Hlen color v.
  assert (Hlen_ds : (String.length ds ≤ 5)%nat).
  { rewrite string_length_append in Hlen. simpl in Hlen. lia. }
  assert (Hv : 0 ≤ v < 16 ^ 5).
  { apply (strtol_digits_0_bounds ds 5). exact Hlen_ds. }
  split; [|split; [exact Hv|]].
  - unfold well_formed_color. subst color. cbn [String.length at_0].
    rewrite Hlen. reflexivity.
  - rewrite color_components_spec. subst color. cbn [substr_1].
    destruct ds as [|d ds]; [congruence|]. simpl in Hds.
    destruct (hex_digit d) as [dv|] eqn:Hd; [|discriminate].
    change (String.append (String d ds) (String c rest))
      with (String d (String.append ds (String c rest))).
    rewrite (strtol_16_digits d dv); [|exact Hd|].
    + change (String d (String.append ds (String c rest)))
        with (String.append (String d ds) (String c rest)).
      rewrite strtol_digits_stops by (simpl; try rewrite Hd; assumption).
      fold v. rewrite to_unsigned_int_small by lia. reflexivity.
    + destruct ds as [|d' ds].
      * change (String.append "" (String c rest)) with (String c rest).
        unfold skip_0x. destruct (Ascii.eqb_spec d "0"%char) as [->|Hd0].
        -- rewrite Hx by reflexivity. reflexivity.
        -- reflexivity.
      * change (String.append (String d' ds) (String c rest))
          with (String d' (String.append ds (String c rest))).
        simpl in Hds. destruct (hex_digit d') eqn:Hd'; [|discriminate].
        eapply skip_0x_digit; eauto.
Qed.

Lemma X7_witness :
  let color := String "#"%char (String.append "ff" (String "z"%char "zzz")) in
  let v := strtol_digits 0 "ff" in
  well_formed_color color = true ∧
  0 ≤ v < 16 ^ 5 ∧
  color_components color = ((v / 65536) mod 256, (v / 256) mod 256, v mod 256).
Proof.
  apply (X7_reading_stops_at_first_stray_character "ff" "z" "zzz");
    try reflexivity; discriminate.
Defined.

(** X8.  For the six characters [addColor] hands to [strtol], the number
    read is below [2^24] in magnitude: it fits a [long] of any width, and
    the clamping of [strtol] at the limits of [long] cannot come into play. *)
Theorem X8_six_characters_never_overflow :
  ∀ color : string,
    well_formed_color color = true →
    - 2 ^ 24 < strtol_16 (substr_1 color) < 2 ^ 24.
Proof.
  intros color (s & -> & Hlen)%well_formed_color_inv. cbn [substr_1].
  pose proof (strtol_16_bounds s) as H. rewrite Hlen in H. exact H.
Qed.

Lemma X8_witness : - 2 ^ 24 < strtol_16 (substr_1 "#-fffff") < 2 ^ 24.
Proof. apply (X8_six_characters_never_overflow "#-fffff"). reflexivity. Defined.

(** X9.  Every colour [addColor] accepts has its three components between
    0 and 255, also when the characters after the hash carry a sign, white
    space or letters. *)
Theorem X9_components_within_a_byte :
  ∀ color : string,
    let '(r, g, b) := color_components color in
    0 ≤ r ≤ 255 ∧ 0 ≤ g ≤ 255 ∧ 0 ≤ b ≤ 255.
Proof.
  intros color. rewrite color_components_spec. cbv zeta.
  repeat split; Z.div_mod_to_equations; lia.
Qed.

(** ** Reading a scheme *)

Section WithPlatform.

Context `{P : Platform}.

Lemma addColor_spec rc key (this : RenderColorScheme P) :
  addColor rc key this
  = match ptree_get_child (pt this) "colors" with
    | Throw w => (Throw w, this)
    | Ok colors =>
        match get_string colors key with
        | Throw w => (Throw w, this)
        | Ok color =>
            if well_formed_color color
            then (Ok tt,
                  set_colors
                    (ColorScheme_insert rc
                       (let '(r, g, b) := color_components color in Color4f_rgb r g b)
                       (_color_scheme this)) this)
            else (Throw (invalid_color_message key color), this)
        end
    end.
Proof.
  unfold addColor, bind, lift, throw.
  destruct (ptree_get_child (pt this) "colors") as [colors|w]; [|reflexivity].
  destruct (get_string colors key) as [color|w]; [|reflexivity].
  destruct (well_formed_color color); [|reflexivity].
  destruct (color_components color) as [[r g] b]. reflexivity.
Qed.

Lemma addColor_some rc key (this : RenderColorScheme P) colors c :
  ptree_get_child (pt this) "colors" = Ok colors →
  color_at colors key = Some c →
  addColor rc key this
  = (Ok tt, set_colors (ColorScheme_insert rc c (_color_scheme this)) this).
Proof.
  intros Hcolors Hc. rewrite addColor_spec, Hcolors. unfold color_at in Hc.
  destruct (get_string colors key) as [color|w]; [|discriminate].
  destruct (well_formed_color color); [|discriminate].
  destruct (color_components color) as [[r g] b]. injection Hc as <-. reflexivity.
Qed.

Lemma addColor_none rc key (this : RenderColorScheme P) colors :
  ptree_get_child (pt this) "colors" = Ok colors →
  color_at colors key = None →
  ∃ w, addColor rc key this = (Throw w, this).
Proof.
  intros Hcolors Hc. rewrite addColor_spec, Hcolors. unfold color_at in Hc.
  destruct (get_string colors key) as [color|w]; [|eexists; reflexivity].
  destruct (well_formed_color color); [|eexists; reflexivity].
  destruct (color_components color) as [[r g] b]. discriminate.
Qed.

Lemma add_colors_all colors l : ∀ this : RenderColorScheme P,
  ptree_get_child (pt this) "colors" = Ok colors →
  Forall (fun p => is_Some (color_at colors p.2)) l →
  add_colors l this
  = (Ok tt, set_colors (fold_colors colors l (_color_scheme this)) this).
Proof.
  induction l as [|[rc key] l IH]; intros this Hcolors Hall.
  - destruct this; reflexivity.
  - apply Forall_cons in Hall as [[c Hc] Hall]. simpl in Hc.
    cbn [add_colors fold_colors]. unfold bind.
    rewrite (addColor_some rc key this colors c Hcolors Hc), Hc.
    rewrite IH by assumption. reflexivity.
Qed.

Lemma add_colors_not_all colors l : ∀ this : RenderColorScheme P,
  ptree_get_child (pt this) "colors" = Ok colors →
  ¬ Forall (fun p => is_Some (color_at colors p.2)) l →
  ∃ w this', add_colors l this = (Throw w, this').
Proof.
  induction l as [|[rc key] l IH]; intros this Hcolors Hnot.
  - exfalso. apply Hnot. constructor.
  - cbn [add_colors]. unfold bind.
    destruct (color_at colors key) as [c|] eqn:Hc.
    + rewrite (addColor_some rc key this colors c Hcolors Hc).
      apply IH; [exact Hcolors|].
      intros Hall. apply Hnot. constructor; [simpl; rewrite Hc; eexists; reflexivity|].
      exact Hall.
    + destruct (addColor_none rc key this colors Hcolors Hc) as [w ->].
      eexists _, _. reflexivity.
Qed.

Lemma add_colors_no_colors l (this : RenderColorScheme P) w :
  ptree_get_child (pt this) "colors" = Throw w →
  l ≠ [] →
  add_colors l this = (Throw w, this).
Proof.
  intros Hcolors Hl. destruct l as [|[rc key] l]; [congruence|].
  cbn [add_colors]. unfold bind. rewrite addColor_spec, Hcolors. reflexivity.
Qed.

(** The [try] block, header first, then the run of colours, then the
    [try] within. *)
Lemma read_scheme_unfold path (this : RenderColorScheme P) :
  read_scheme path this
  = match read_json path with
    | Throw w => (Throw w, this)
    | Ok t =>
        let s1 := {| _path := _path this; _name := _name this; _index := _index this;
                     _show_in_gui := _show_in_gui this; _error := _error this;
                     _color_scheme := _color_scheme this; pt := t |} in
        match get_string t "name" with
        | Throw w => (Throw w, s1)
        | Ok n =>
            let s2 := {| _path := _path this; _name := n; _index := _index this;
                         _show_in_gui := _show_in_gui this; _error := _error this;
                         _color_scheme := _color_scheme this; pt := t |} in
            match get_int t "index" with
            | Throw w => (Throw w, s2)
            | Ok i =>
                let s3 := {| _path := _path this; _name := n; _index := i;
                             _show_in_gui := _show_in_gui this; _error := _error this;
                             _color_scheme := _color_scheme this; pt := t |} in
                match get_bool t "show-in-gui" with
                | Throw w => (Throw w, s3)
                | Ok g =>
                    bind (add_colors mandatory_colors) (fun _ =>
                      try_catch (addColor BACKGROUND_STOP_COLOR "background-stop")
                        (fun _ => addColor BACKGROUND_STOP_COLOR "background"))
                      {| _path := _path this; _name := n; _index := i;
                         _show_in_gui := g; _error := _error this;
                         _color_scheme := _color_scheme this; pt := t |}
                end
            end
        end
    end.
Proof.
  unfold read_scheme. unfold bind at 1. unfold lift.
  destruct (read_json path) as [t|w]; [|reflexivity].
  unfold bind at 1. cbn [set_pt]. unfold bind at 1. cbn [pt].
  destruct (get_string t "name") as [n|w]; [|reflexivity].
  unfold bind at 1. cbn [set_name _path _name _index _show_in_gui _error _color_scheme pt].
  unfold bind at 1. cbn [pt].
  destruct (get_int t "index") as [i|w]; [|reflexivity].
  unfold bind at 1. cbn [set_index _path _name _index _show_in_gui _error _color_scheme pt].
  unfold bind at 1. cbn [pt].
  destruct (get_bool t "show-in-gui") as [g|w]; [|reflexivity].
  unfold bind at 1.
  cbn [set_show_in_gui _path _name _index _show_in_gui _error _color_scheme pt].
  cbv zeta. unfold mandatory_colors. cbn [add_colors]. unfold bind, ret.
  repeat (match goal with
          | |- context [addColor ?rc ?k ?s] =>
              destruct (addColor rc k s) as [[[]|?] ?]
          end; try reflexivity).
Qed.

Lemma valid_read_failed w (s : RenderColorScheme P) :
  let s' := (read_failed w s).2 in
  _name s' = "" ∧ _index s' = 0 ∧ _show_in_gui s' = false ∧ _error s' = w ∧
  valid s' = false ∧ _color_scheme s' = _color_scheme s.
Proof. repeat split. Qed.

Lemma readable_background path t n i g colors :
  readable path t n i g colors → is_Some (color_at colors "background").
Proof.
  intros (_ & _ & _ & _ & _ & Hall).
  unfold mandatory_colors in Hall. apply Forall_cons in Hall as [H _]. exact H.
Qed.

(** The object a readable file yields. *)
Lemma from_readable path t n i g colors :
  readable path t n i g colors →
  ∃ c, stop_color colors = Some c ∧
       RenderColorScheme_from path
       = {| _path := path; _name := n; _index := i; _show_in_gui := g;
            _error := "";
            _color_scheme :=
              ColorScheme_insert BACKGROUND_STOP_COLOR c
                (fold_colors colors mandatory_colors ∅);
            pt := t |}.
Proof.
  intros Hr. destruct (readable_background _ _ _ _ _ _ Hr) as [cb Hcb].
  destruct Hr as (Hjson & Hn & Hi & Hg & Hcolors & Hall).
  unfold RenderColorScheme_from, try_catch.
  rewrite read_scheme_unfold, Hjson, Hn, Hi, Hg. cbv zeta. cbn [_path _name _index _show_in_gui _error _color_scheme].
  unfold bind.
  rewrite (add_colors_all colors) by assumption.
  cbn [set_colors _path _name _index _show_in_gui _error _color_scheme pt].
  unfold try_catch, stop_color.
  destruct (color_at colors "background-stop") as [c|] eqn:Hstop.
  - exists c. split; [reflexivity|].
    erewrite addColor_some by eassumption. reflexivity.
  - exists cb. split; [exact Hcb|].
    match goal with
    | |- context [addColor BACKGROUND_STOP_COLOR "background-stop" ?s] =>
        destruct (addColor_none BACKGROUND_STOP_COLOR "background-stop" s colors
                    Hcolors Hstop) as [w ->]
    end.
    erewrite addColor_some by eassumption. reflexivity.
Qed.

(** A file is readable, or the handler of the outer [catch] has run. *)
Lemma from_cases path :
  (∃ t n i g colors, readable path t n i g colors) ∨
  (∃ w s, RenderColorScheme_from path = (read_failed w s).2).
Proof.
  unfold RenderColorScheme_from, try_catch. rewrite read_scheme_unfold.
  destruct (read_json path) as [t|w] eqn:Hjson; [|right; eexists _, _; reflexivity].
  cbv zeta.
  destruct (get_string t "name") as [n|w] eqn:Hn; [|right; eexists _, _; reflexivity].
  destruct (get_int t "index") as [i|w] eqn:Hi; [|right; eexists _, _; reflexivity].
  destruct (get_bool t "show-in-gui") as [g|w] eqn:Hg;
    [|right; eexists _, _; reflexivity].
  destruct (ptree_get_child t "colors") as [colors|w] eqn:Hcolors.
  - destruct (decide (Forall (fun p => is_Some (color_at colors p.2)) mandatory_colors))
      as [Hall|Hnot].
    + left. exists t, n, i, g, colors. repeat split; assumption.
    + right. unfold bind.
      match goal with
      | |- context [add_colors mandatory_colors ?s] =>
          destruct (add_colors_not_all colors mandatory_colors s Hcolors Hnot)
            as (w & s' & ->)
      end.
      eexists _, _. reflexivity.
  - right. unfold bind.
    rewrite (add_colors_no_colors mandatory_colors _ w) by (assumption || discriminate).
    eexists _, _. reflexivity.
Qed.

Lemma readable_unique path t n i g colors t' n' i' g' colors' :
  readable path t n i g colors → readable path t' n' i' g' colors' →
  t = t' ∧ n = n' ∧ i = i' ∧ g = g' ∧ colors = colors'.
Proof.
  intros (H1 & H2 & H3 & H4 & H5 & _) (H1' & H2' & H3' & H4' & H5' & _).
  rewrite H1 in H1'. injection H1' as <-.
  rewrite H2 in H2'. injection H2' as <-.
  rewrite H3 in H3'. injection H3' as <-.
  rewrite H4 in H4'. injection H4' as <-.
  rewrite H5 in H5'. injection H5' as <-.
  repeat split.
Qed.

Lemma ColorScheme_insert_eq rc c (cs : gmap RenderColor Color4f) :
  ColorScheme_insert rc c cs !! rc = Some (default c (cs !! rc)).
Proof.
  unfold ColorScheme_insert. destruct (cs !! rc) as [c'|] eqn:E; simpl.
  - exact E.
  - apply lookup_insert_eq.
Qed.

Lemma ColorScheme_insert_ne rc c (cs : gmap RenderColor Color4f) k :
  k ≠ rc → ColorScheme_insert rc c cs !! k = cs !! k.
Proof.
  intros Hne. unfold ColorScheme_insert. destruct (cs !! rc); [reflexivity|].
  apply lookup_insert_ne. congruence.
Qed.

Lemma ColorScheme_insert_keep rc c (cs : gmap RenderColor Color4f) k :
  is_Some (cs !! k) → ColorScheme_insert rc c cs !! k = cs !! k.
Proof.
  intros [c' Hk]. destruct (decide (k = rc)) as [->|Hne].
  - rewrite ColorScheme_insert_eq, Hk. reflexivity.
  - apply ColorScheme_insert_ne. exact Hne.
Qed.

Lemma fold_colors_keep colors l : ∀ (cs : gmap RenderColor Color4f) k,
  is_Some (cs !! k) → fold_colors colors l cs !! k = cs !! k.
Proof.
  induction l as [|[rc key] l IH]; intros cs k Hk; [reflexivity|].
  cbn [fold_colors]. destruct (color_at colors key) as [c|]; [|reflexivity].
  rewrite IH; rewrite ColorScheme_insert_keep by exact Hk; auto.
Qed.

Lemma fold_colors_other colors l : ∀ (cs : gmap RenderColor Color4f) k,
  k ∉ l.*1 → fold_colors colors l cs !! k = cs !! k.
Proof.
  induction l as [|[rc key] l IH]; intros cs k Hk; [reflexivity|].
  cbn [fold_colors]. rewrite fmap_cons in Hk. simpl in Hk.
  apply not_elem_of_cons in Hk as [Hne Hk].
  destruct (color_at colors key) as [c|]; [|reflexivity].
  rewrite IH by exact Hk. apply ColorScheme_insert_ne. exact Hne.
Qed.

(** Each key of a run gets the colour of its string, when the keys differ
    and none is set beforehand. *)
Lemma fold_colors_lookup colors l : ∀ (cs : gmap RenderColor Color4f) rc key,
  Forall (fun p => is_Some (color_at colors p.2)) l →
  NoDup l.*1 →
  (rc, key) ∈ l →
  cs !! rc = None →
  fold_colors colors l cs !! rc = color_at colors key.
Proof.
  induction l as [|[rc' key'] l IH]; intros cs rc key Hall Hnd Hin Hnone.
  - inversion Hin.
  - apply Forall_cons in Hall as [[c Hc] Hall]. simpl in Hc.
    rewrite fmap_cons in Hnd. apply NoDup_cons in Hnd as [Hout Hnd]. simpl in Hout.
    cbn [fold_colors]. rewrite Hc.
    apply elem_of_cons in Hin as [[= -> ->]|Hin].
    + rewrite fold_colors_other by exact Hout.
      rewrite ColorScheme_insert_eq, Hnone, Hc. reflexivity.
    + apply IH; try assumption.
      rewrite ColorScheme_insert_ne; [exact Hnone|].
      intros ->. apply Hout. apply list_elem_of_fmap. exists (rc', key).
      split; [reflexivity|exact Hin].
Qed.

Lemma mandatory_colors_NoDup : NoDup mandatory_colors.*1.
Proof. apply (bool_decide_unpack _). vm_compute. exact I. Qed.

Lemma stop_not_mandatory : BACKGROUND_STOP_COLOR ∉ mandatory_colors.*1.
Proof. apply (bool_decide_unpack _). vm_compute. exact I. Qed.

Lemma render_color_cases rc :
  rc = BACKGROUND_STOP_COLOR ∨ ∃ key, (rc, key) ∈ mandatory_colors.
Proof.
  destruct rc; [right|left; reflexivity|right..];
    eexists; unfold mandatory_colors; repeat constructor.
Qed.

(** The colours of the object a readable file yields. *)
Lemma readable_colors path t n i g colors :
  readable path t n i g colors →
  let cs := _color_scheme (RenderColorScheme_from path) in
  (∀ rc key, (rc, key) ∈ mandatory_colors → cs !! rc = color_at colors key) ∧
  cs !! BACKGROUND_STOP_COLOR = stop_color colors ∧
  is_Some (stop_color colors).
Proof.
  intros Hr cs. destruct (from_readable _ _ _ _ _ _ Hr) as (c & Hstop & Hfrom).
  subst cs. rewrite Hfrom. cbn [_color_scheme].
  destruct Hr as (_ & _ & _ & _ & _ & Hall).
  split; [|split].
  - intros rc key Hin. rewrite ColorScheme_insert_ne.
    + apply fold_colors_lookup; auto using mandatory_colors_NoDup.
    + intros ->. apply stop_not_mandatory. apply list_elem_of_fmap.
      exists (BACKGROUND_STOP_COLOR, key). split; [reflexivity|exact Hin].
  - rewrite ColorScheme_insert_eq, fold_colors_other by apply stop_not_mandatory.
    rewrite lookup_empty. simpl. symmetry. exact Hstop.
  - rewrite Hstop. eexists; reflexivity.
Qed.

Lemma valid_from_complete path :
  valid (RenderColorScheme_from path) = true →
  complete (_color_scheme (RenderColorScheme_from path)).
Proof.
  intros Hvalid.
  destruct (from_cases path) as [(t & n & i & g & colors & Hr)|(w & s & Hf)].
  - destruct (readable_colors _ _ _ _ _ _ Hr) as (Hmand & Hstop & Hsome).
    intros rc. destruct (render_color_cases rc) as [->|[key Hin]].
    + rewrite Hstop. exact Hsome.
    + rewrite (Hmand rc key Hin).
      destruct Hr as (_ & _ & _ & _ & _ & Hall).
      rewrite Forall_forall in Hall. apply (Hall (rc, key)). exact Hin.
  - rewrite Hf in Hvalid. discriminate.
Qed.

(** X10.  When [addColor] throws, the scheme is left exactly as it was, and
    the exception is that of the missing ["colors"] node, that of the
    missing key, or the [invalid_argument] whose message names the key and
    quotes the string that is not a hash followed by six characters. *)
Theorem X10_addColor_throw_leaves_scheme_untouched :
  ∀ (rc : RenderColor) (key : string) (this this' : RenderColorScheme P) (w : string),
    addColor rc key this = (Throw w, this') →
    this' = this ∧
    (ptree_get_child (pt this) "colors" = Throw w ∨
     ∃ colors, ptree_get_child (pt this) "colors" = Ok colors ∧
       (get_string colors key = Throw w ∨
        ∃ color, get_string colors key = Ok color ∧
                 well_formed_color color = false ∧
                 w = invalid_color_message key color)).
Proof.
  intros rc key this this' w. rewrite addColor_spec.
  destruct (ptree_get_child (pt this) "colors") as [colors|w0] eqn:Hcolors.
  - destruct (get_string colors key) as [color|w1] eqn:Hkey.
    + destruct (well_formed_color color) eqn:Hwf; [discriminate|].
      intros [= <- <-]. split; [reflexivity|]. right. exists colors.
      split; [reflexivity|]. right. exists color. repeat split; assumption.
    + intros [= <- <-]. split; [reflexivity|]. right. exists colors.
      split; [reflexivity|]. left. exact Hkey.
  - intros [= <- <-]. split; [reflexivity|]. left. reflexivity.
Qed.

(** X11.  When [addColor] returns, the key holds a colour: the one it held
    before the call, if it held one, else the colour read from the string;
    every other key and every other member is as before. *)
Theorem X11_addColor_sets_only_an_unset_key :
  ∀ (rc : RenderColor) (key : string) (this this' : RenderColorScheme P) (u : unit),
    addColor rc key this = (Ok u, this') →
    ∃ colors c,
      ptree_get_child (pt this) "colors" = Ok colors ∧
      color_at colors key = Some c ∧
      _color_scheme this' !! rc = Some (default c (_color_scheme this !! rc)) ∧
      (∀ k, k ≠ rc → _color_scheme this' !! k = _color_scheme this !! k) ∧
      this' = set_colors (_color_scheme this') this.
Proof.
  intros rc key this this' u Hadd.
  destruct (ptree_get_child (pt this) "colors") as [colors|w] eqn:Hcolors;
    [|rewrite addColor_spec, Hcolors in Hadd; discriminate].
  destruct (color_at colors key) as [c|] eqn:Hc.
  - rewrite (addColor_some rc key this colors c Hcolors Hc) in Hadd.
    injection Hadd as Hthis. subst this'. exists colors, c.
    split; [reflexivity|]. split; [exact Hc|]. cbn [set_colors _color_scheme].
    split; [apply ColorScheme_insert_eq|]. split; [|reflexivity].
    intros k Hk. apply ColorScheme_insert_ne. exact Hk.
  - destruct (addColor_none rc key this colors Hcolors Hc) as [w Hw].
    rewrite Hw in Hadd. discriminate.
Qed.

(** X12.  A scheme read from a file that is valid holds a colour under each
    of the twelve keys and carries no error message. *)
Theorem X12_valid_scheme_is_complete :
  ∀ path : string,
    valid (RenderColorScheme_from path) = true →
    complete (_color_scheme (RenderColorScheme_from path)) ∧
    _error (RenderColorScheme_from path) = "".
Proof.
  intros path Hvalid. split; [apply valid_from_complete; exact Hvalid|].
  destruct (from_cases path) as [(t & n & i & g & colors & Hr)|(w & s & Hf)].
  - destruct (from_readable _ _ _ _ _ _ Hr) as (c & _ & ->). reflexivity.
  - rewrite Hf in Hvalid. discriminate.
Qed.

(** X13.  In the scheme a readable file yields, each of the eleven colours
    is the one written under its key, and the background stop colour is
    the one written under ["background-stop"] when that can be read, else
    the background colour. *)
Theorem X13_colours_of_a_readable_file :
  ∀ (path : string) (t : ptree) (n : string) (i : Z) (g : bool) (colors : ptree),
    readable path t n i g colors →
    let cs := _color_scheme (RenderColorScheme_from path) in
    (∀ rc key, (rc, key) ∈ mandatory_colors → cs !! rc = color_at colors key) ∧
    cs !! BACKGROUND_STOP_COLOR
    = match color_at colors "background-stop" with
      | Some c => Some c
      | None => cs !! BACKGROUND_COLOR
      end.
Proof.
  intros path t n i g colors Hr cs.
  destruct (readable_colors _ _ _ _ _ _ Hr) as (Hmand & Hstop & _).
  split; [exact Hmand|]. fold cs in Hmand, Hstop. rewrite Hstop. unfold stop_color.
  destruct (color_at colors "background-stop"); [reflexivity|].
  symmetry. apply Hmand. unfold mandatory_colors. left.
Qed.

(** X14.  A file yields a valid scheme exactly when it can be parsed, holds
    a non-empty name, an index, the show-in-gui flag and a well-formed
    string under each of the eleven colour keys; the scheme then has that
    name, index and flag.  What stands under ["background-stop"], if
    anything, plays no part. *)
Theorem X14_validity_of_a_scheme_file :
  ∀ path : string,
    valid (RenderColorScheme_from path) = true ↔
    ∃ t n i g colors,
      readable path t n i g colors ∧ n ≠ "" ∧
      _name (RenderColorScheme_from path) = n ∧
      _index (RenderColorScheme_from path) = i ∧
      _show_in_gui (RenderColorScheme_from path) = g.
Proof.
  intros path. split.
  - intros Hvalid.
    destruct (from_cases path) as [(t & n & i & g & colors & Hr)|(w & s & Hf)].
    + exists t, n, i, g, colors.
      destruct (from_readable _ _ _ _ _ _ Hr) as (c & _ & Hfrom).
      rewrite Hfrom in Hvalid |- *. cbn [_name _index _show_in_gui].
      split; [exact Hr|]. split; [|repeat split].
      intros ->. discriminate.
    + rewrite Hf in Hvalid. discriminate.
  - intros (t & n & i & g & colors & Hr & Hn & _).
    destruct (from_readable _ _ _ _ _ _ Hr) as (c & _ & ->).
    unfold valid. cbn [_name]. destruct (String.eqb_spec n ""); [contradiction|].
    reflexivity.
Qed.

(** X15.  When a file cannot be read through, wherever the reading fails,
    the scheme ends with an empty name, index 0 and the show-in-gui flag
    off, and is not valid, also when the name and the index had been read
    before the failure. *)
Theorem X15_unreadable_file_resets_the_scheme :
  ∀ path : string,
    (∀ t n i g colors, ¬ readable path t n i g colors) →
    let s := RenderColorScheme_from path in
    _name s = "" ∧ _index s = 0 ∧ _show_in_gui s = false ∧ valid s = false.
Proof.
  intros path Hnot s.
  destruct (from_cases path) as [(t & n & i & g & colors & Hr)|(w & s' & Hf)].
  - exfalso. exact (Hnot _ _ _ _ _ Hr).
  - subst s. rewrite Hf. repeat split.
Qed.


(** ** The set of schemes *)

Lemma set_insert_elem multi i s (set : list (Z * RenderColorScheme P)) x :
  x ∈ set → x ∈ set_insert multi i s set.
Proof.
  induction set as [|[j s'] set IH]; intros Hx; [inversion Hx|].
  cbn [set_insert]. destruct (i <? j); [right; exact Hx|].
  destruct ((i =? j) && negb multi); [exact Hx|].
  apply elem_of_cons in Hx as [->|Hx]; [left|right; apply IH; exact Hx].
Qed.

Lemma set_insert_inv multi i s (set : list (Z * RenderColorScheme P)) x :
  x ∈ set_insert multi i s set → x = (i, s) ∨ x ∈ set.
Proof.
  induction set as [|[j s'] set IH]; cbn [set_insert].
  - intros Hx. apply list_elem_of_singleton in Hx. left. exact Hx.
  - destruct (i <? j).
    { intros [->|Hx]%elem_of_cons; [left; reflexivity|right; exact Hx]. }
    destruct ((i =? j) && negb multi); [right; assumption|].
    intros [->|Hx]%elem_of_cons; [right; left|].
    destruct (IH Hx) as [->|Hin]; [left; reflexivity|right; right; exact Hin].
Qed.

Lemma set_insert_length i s (set : list (Z * RenderColorScheme P)) :
  length (set_insert true i s set) = S (length set).
Proof.
  induction set as [|[j s'] set IH]; [reflexivity|].
  cbn [set_insert]. destruct (i <? j); [reflexivity|].
  rewrite andb_false_r. simpl. rewrite IH. reflexivity.
Qed.

Lemma set_insert_sorted multi i s (set : list (Z * RenderColorScheme P)) :
  Sorted by_index set →
  Sorted by_index (set_insert multi i s set) ∧
  ∀ a, HdRel by_index a set → by_index a (i, s) →
       HdRel by_index a (set_insert multi i s set).
Proof.
  induction set as [|[j s'] set IH]; intros Hs.
  - split; [repeat constructor|]. intros a _ Ha. constructor. exact Ha.
  - apply Sorted_inv in Hs as [Hs Hhd]. destruct (IH Hs) as [IH1 IH2].
    cbn [set_insert]. destruct (Z.ltb_spec i j) as [Hlt|Hge].
    + split.
      * constructor; [constructor; assumption|]. constructor. unfold by_index; simpl. lia.
      * intros a _ Ha. constructor. exact Ha.
    + destruct ((i =? j) && negb multi).
      * split; [constructor; assumption|]. intros a Ha _. exact Ha.
      * split.
        -- constructor; [exact IH1|]. apply IH2; [exact Hhd|].
           unfold by_index; simpl. lia.
        -- intros a Ha _. constructor. inversion Ha; assumption.
Qed.

Lemma enumerate_entry_spec multi (this_set result : list (Z * RenderColorScheme P))
    entry :
  enumerate_entry multi this_set result entry
  = let s := RenderColorScheme_from (entry_path entry) in
    if accepted entry &&
       match findColorScheme this_set (_name s) with
       | None => true
       | Some _ => false
       end
    then set_insert multi (_index s) s result
    else result.
Proof.
  unfold enumerate_entry, accepted. cbv zeta.
  destruct (is_regular_file entry); [|reflexivity]. simpl.
  destruct (String.eqb (path_extension (entry_path entry)) ".json"); reflexivity.
Qed.

(** What the enumeration keeps of a set: anything true of the set it
    starts from, and of every valid scheme stored under its own index, is
    true of the set it returns; the set stays sorted and loses nothing. *)
Lemma enumerate_entries_inv multi (this_set : list (Z * RenderColorScheme P))
    (Q : Z * RenderColorScheme P → Prop) entries :
  (∀ path, valid (RenderColorScheme_from path) = true →
           Q (_index (RenderColorScheme_from path), RenderColorScheme_from path)) →
  ∀ result,
    Forall Q result ∧ Sorted by_index result →
    let result' := fold_left (enumerate_entry multi this_set) entries result in
    Forall Q result' ∧ Sorted by_index result' ∧ ∀ x, x ∈ result → x ∈ result'.
Proof.
  intros HQ. induction entries as [|entry entries IH]; intros result [Hall Hs].
  - simpl. auto.
  - cbn [fold_left]. rewrite enumerate_entry_spec. cbv zeta.
    destruct (accepted entry && _) eqn:Hacc.
    + apply andb_true_iff in Hacc as [Hacc _]. unfold accepted in Hacc.
      apply andb_true_iff in Hacc as [_ Hvalid].
      destruct (IH (set_insert multi (_index (RenderColorScheme_from (entry_path entry)))
                      (RenderColorScheme_from (entry_path entry)) result))
        as (H1 & H2 & H3).
      * split; [|apply set_insert_sorted; exact Hs].
        rewrite Forall_forall. intros x [->|Hx]%set_insert_inv.
        -- apply HQ. exact Hvalid.
        -- rewrite Forall_forall in Hall. apply Hall. exact Hx.
      * split; [exact H1|]. split; [exact H2|].
        intros x Hx. apply H3. apply set_insert_elem. exact Hx.
    + apply IH. split; assumption.
Qed.

Lemma enumerateColorSchemes_inv multi (this_set : list (Z * RenderColorScheme P))
    (Q : Z * RenderColorScheme P → Prop) :
  (∀ path, valid (RenderColorScheme_from path) = true →
           Q (_index (RenderColorScheme_from path), RenderColorScheme_from path)) →
  Q (1000, RenderColorScheme_default) →
  let set := enumerateColorSchemes multi this_set in
  Forall Q set ∧ Sorted by_index set ∧ (1000, RenderColorScheme_default) ∈ set.
Proof.
  intros HQ Hdef. unfold enumerateColorSchemes, enumerateColorSchemesInPath.
  cbv zeta. cbn [set_insert _index RenderColorScheme_default].
  assert (H0 : Forall Q [(1000, @RenderColorScheme_default P)] ∧
               Sorted by_index [(1000, @RenderColorScheme_default P)]).
  { split; repeat constructor. exact Hdef. }
  assert (H1 : ∀ base result,
    (Forall Q result ∧ Sorted by_index result) →
    let result' :=
      if is_directory (path_append (path_append base "color-schemes") "render")
      then fold_left (enumerate_entry multi this_set)
             (directory_entries (path_append (path_append base "color-schemes") "render"))
             result
      else result in
    (Forall Q result' ∧ Sorted by_index result') ∧ ∀ x, x ∈ result → x ∈ result').
  { intros base result Hres. cbv zeta.
    destruct (is_directory _); [|split; [exact Hres|auto]].
    destruct (enumerate_entries_inv multi this_set Q
                (directory_entries (path_append (path_append base "color-schemes") "render"))
                HQ result Hres) as (Ha & Hb & Hc).
    split; [split|]; assumption. }
  destruct (H1 resourceBasePath _ H0) as [Hres Hin1].
  destruct (H1 userConfigPath _ Hres) as [[Hq Hs] Hin2].
  split; [exact Hq|]. split; [exact Hs|].
  apply Hin2, Hin1. left.
Qed.

Lemma findColorScheme_elem (set : list (Z * RenderColorScheme P)) i s :
  (i, s) ∈ set →
  ∃ i' s', (i', s') ∈ set ∧ _name s' = _name s ∧
           findColorScheme set (_name s) = Some (_color_scheme s').
Proof.
  induction set as [|[j s0] set IH]; intros Hin; [inversion Hin|].
  cbn [findColorScheme]. destruct (String.eqb_spec (_name s) (_name s0)) as [Heq|Hne].
  - exists j, s0. split; [left|]. split; [symmetry; exact Heq|reflexivity].
  - apply elem_of_cons in Hin as [[= -> ->]|Hin]; [congruence|].
    destruct (IH Hin) as (i' & s' & Hin' & Hname & Hfind).
    exists i', s'. split; [right; exact Hin'|]. split; assumption.
Qed.

Lemma default_complete : complete (_color_scheme (@RenderColorScheme_default P)).
Proof. intros rc. destruct rc; vm_compute; eexists; reflexivity. Qed.

(** X16.  [findColorScheme] returns null exactly when no scheme of the set
    has the name; otherwise it returns the colours of the first scheme, in
    the order of the set, that has it. *)
Theorem X16_findColorScheme_first_of_that_name :
  ∀ (set : list (Z * RenderColorScheme P)) (name : string),
    match findColorScheme set name with
    | None => Forall (fun p => _name p.2 ≠ name) set
    | Some cs =>
        ∃ before i scheme after,
          set = before ++ (i, scheme) :: after ∧
          Forall (fun p => _name p.2 ≠ name) before ∧
          _name scheme = name ∧
          cs = _color_scheme scheme
    end.
Proof.
  intros set name. induction set as [|[j s] set IH]; cbn [findColorScheme].
  - constructor.
  - destruct (String.eqb_spec name (_name s)) as [Heq|Hne].
    + exists [], j, s, set. repeat split; [constructor|symmetry; exact Heq].
    + destruct (findColorScheme set name) as [cs|].
      * destruct IH as (before & i & scheme & after & -> & Hb & Hn & Hcs).
        exists ((j, s) :: before), i, scheme, after.
        repeat split; try assumption. constructor; [simpl; congruence|exact Hb].
      * constructor; [simpl; congruence|exact IH].
Qed.

(** X17.  Every name [colorSchemeNames] lists, with or without the GUI
    filter, is a name [findColorScheme] finds; the filtered list is a
    sub-list of the full one, which has one name for each scheme. *)
Theorem X17_listed_names_are_found :
  ∀ (set : list (Z * RenderColorScheme P)),
    (∀ guiOnly name,
        name ∈ colorSchemeNames set guiOnly → is_Some (findColorScheme set name)) ∧
    sublist (colorSchemeNames set true) (colorSchemeNames set false) ∧
    colorSchemeNames set false = (fun p => _name p.2) <$> set.
Proof.
  intros set. split; [|split].
  - intros guiOnly name. induction set as [|[j s] set IH]; cbn [colorSchemeNames findColorScheme].
    + intros H. inversion H.
    + destruct (String.eqb_spec name (_name s)) as [Heq|Hne]; [eexists; reflexivity|].
      destruct (guiOnly && negb (_show_in_gui s)); [exact IH|].
      intros [->|Hin]%elem_of_cons; [congruence|apply IH; exact Hin].
  - induction set as [|[j s] set IH]; cbn [colorSchemeNames]; [constructor|].
    simpl. destruct (negb (_show_in_gui s)).
    + apply sublist_cons. exact IH.
    + apply sublist_skip. exact IH.
  - induction set as [|[j s] set IH]; cbn [colorSchemeNames]; [reflexivity|].
    simpl. rewrite IH. reflexivity.
Qed.

(** X18.  Whatever the directories hold, the set [ColorMap::ColorMap]
    builds has a scheme of the default name: [defaultColorScheme] never
    dereferences null. *)
Theorem X18_default_scheme_always_found :
  ∀ multi : bool, is_Some (defaultColorScheme (ColorMap_new multi)).
Proof.
  intros multi. unfold defaultColorScheme, ColorMap_new.
  destruct (enumerateColorSchemes_inv multi [] (fun _ => True)) as (_ & _ & Hin);
    [auto..|].
  destruct (findColorScheme_elem _ _ _ Hin) as (i' & s' & _ & _ & Hfind).
  cbn [_name RenderColorScheme_default] in Hfind. rewrite Hfind. eexists; reflexivity.
Qed.

(** X19.  Every scheme of the set [ColorMap::ColorMap] builds is valid,
    holds a colour under each of the twelve keys, and is stored under its
    own index. *)
Theorem X19_every_enumerated_scheme_is_complete :
  ∀ multi : bool,
    Forall (fun p => p.1 = _index p.2 ∧ valid p.2 = true ∧
                     complete (_color_scheme p.2))
      (ColorMap_new multi).
Proof.
  intros multi. unfold ColorMap_new.
  destruct (enumerateColorSchemes_inv multi []
              (fun p => p.1 = _index p.2 ∧ valid p.2 = true ∧
                        complete (_color_scheme p.2))) as (H & _ & _).
  - intros path Hvalid. split; [reflexivity|]. split; [exact Hvalid|].
    apply valid_from_complete. exact Hvalid.
  - split; [reflexivity|]. split; [reflexivity|]. apply default_complete.
  - exact H.
Qed.

(** X21.  With the set [ColorMap::ColorMap] builds, [getColor] always
    answers with a stored colour: the one of the scheme it is given when
    the key is there, else the one of the scheme found under the default
    name; the literal [{0, 0, 0, 127}] is never reached. *)
Theorem X21_getColor_answers_from_a_scheme :
  ∀ (multi : bool) (cs : gmap RenderColor Color4f) (rc : RenderColor),
    ∃ c, getColor (ColorMap_new multi) cs rc = Some c ∧
         match cs !! rc with
         | Some c' => c = c'
         | None =>
             ∃ def, defaultColorScheme (ColorMap_new multi) = Some def ∧
                    def !! rc = Some c
         end.
Proof.
  intros multi cs rc. unfold getColor.
  destruct (cs !! rc) as [c|]; [exists c; split; reflexivity|].
  pose proof (Hinv := enumerateColorSchemes_inv multi []
    (fun p => complete (_color_scheme p.2))).
  destruct Hinv as (Hall & _ & Hin).
  { intros path Hvalid. apply valid_from_complete. exact Hvalid. }
  { apply default_complete. }
  fold (ColorMap_new multi) in Hall, Hin.
  destruct (findColorScheme_elem _ _ _ Hin) as (i' & s' & Hin' & _ & Hfind).
  cbn [_name RenderColorScheme_default] in Hfind.
  unfold defaultColorScheme. rewrite Hfind.
  rewrite Forall_forall in Hall. destruct (Hall _ Hin' rc) as [c Hc].
  simpl in Hc. rewrite Hc. exists c. split; [reflexivity|].
  exists (_color_scheme s'). split; [reflexivity|exact Hc].
Qed.

Lemma set_insert_perm i s (set : list (Z * RenderColorScheme P)) :
  set_insert true i s set ≡ₚ (i, s) :: set.
Proof.
  induction set as [|[j s'] set IH]; [reflexivity|].
  cbn [set_insert]. destruct (i <? j); [reflexivity|].
  rewrite andb_false_r. rewrite IH. apply perm_swap.
Qed.

Lemma enumerate_entries_perm entries : ∀ result : list (Z * RenderColorScheme P),
  fold_left (enumerate_entry true []) entries result
  ≡ₚ result ++ (scheme_of_entry <$> filter (fun e => accepted e = true) entries).
Proof.
  induction entries as [|e entries IH]; intros result.
  - simpl. rewrite app_nil_r. reflexivity.
  - cbn [fold_left]. rewrite IH, enumerate_entry_spec. cbv zeta.
    cbn [findColorScheme]. rewrite andb_true_r, filter_cons.
    destruct (accepted e) eqn:Hacc.
    + rewrite decide_True by reflexivity. rewrite set_insert_perm, fmap_cons.
      apply Permutation_middle.
    + rewrite decide_False by discriminate. reflexivity.
Qed.

(** X22.  While [ColorMap::ColorMap] enumerates, the member set that the
    duplicate-name test looks into is still empty, so the test rejects
    nothing: with a container that keeps several schemes under one index,
    the set built holds, each under its own index, the built-in scheme and
    the scheme read from every regular [*.json] file of the two directories
    that yields a valid scheme, once for each such file, equal names
    included, and nothing else. *)
Theorem X22_duplicate_names_are_not_filtered :
  ColorMap_new true
  ≡ₚ (_index RenderColorScheme_default, RenderColorScheme_default)
     :: (scheme_of_entry
           <$> filter (fun e => accepted e = true) (scheme_files resourceBasePath))
     ++ (scheme_of_entry
           <$> filter (fun e => accepted e = true) (scheme_files userConfigPath)) ∧
  length (ColorMap_new true)
  = S (length (filter (fun e => accepted e = true) (scheme_files resourceBasePath))
       + length (filter (fun e => accepted e = true) (scheme_files userConfigPath))).
Proof.
  assert (Hperm : ColorMap_new true
    ≡ₚ (_index RenderColorScheme_default, @RenderColorScheme_default P)
       :: (scheme_of_entry
             <$> filter (fun e => accepted e = true) (scheme_files resourceBasePath))
       ++ (scheme_of_entry
             <$> filter (fun e => accepted e = true) (scheme_files userConfigPath))).
  { unfold ColorMap_new, enumerateColorSchemes, enumerateColorSchemesInPath,
      scheme_files.
    cbv zeta. cbn [set_insert].
    destruct (is_directory (path_append (path_append resourceBasePath _) _));
      destruct (is_directory (path_append (path_append userConfigPath _) _));
      rewrite ?enumerate_entries_perm; cbn [filter list_filter fmap list_fmap];
      rewrite ?app_nil_r; reflexivity. }
  split; [exact Hperm|].
  rewrite Hperm. cbn [length]. rewrite length_app, !length_fmap. reflexivity.
Qed.

End WithPlatform.

Import ColorMapSample.

Lemma X10_witness :
  let this := RenderColorScheme_from "broken.json" in
  this = this ∧
  (ptree_get_child (pt this) "colors" = Throw "No such node" ∨
   ∃ colors, ptree_get_child (pt this) "colors" = Ok colors ∧
     (get_string colors "crosshair" = Throw "No such node" ∨
      ∃ color, get_string colors "crosshair" = Ok color ∧
               well_formed_color color = false ∧
               "No such node" = invalid_color_message "crosshair" color)).
Proof.
  apply (X10_addColor_throw_leaves_scheme_untouched
           CROSSHAIR_COLOR "crosshair" (RenderColorScheme_from "broken.json")).
  vm_compute. reflexivity.
Defined.

Lemma X11_witness :
  let this := RenderColorScheme_from "sunset.json" in
  ∃ colors c,
    ptree_get_child (pt this) "colors" = Ok colors ∧
    color_at colors "crosshair" = Some c ∧
    _color_scheme this !! AXES_COLOR
    = Some (default c (_color_scheme this !! AXES_COLOR)) ∧
    (∀ k, k ≠ AXES_COLOR → _color_scheme this !! k = _color_scheme this !! k) ∧
    this = set_colors (_color_scheme this) this.
Proof.
  apply (X11_addColor_sets_only_an_unset_key
           AXES_COLOR "crosshair" (RenderColorScheme_from "sunset.json")
           (RenderColorScheme_from "sunset.json") tt).
  vm_compute. reflexivity.
Defined.

Lemma sunset_readable :
  readable (P := platform) "sunset.json" sunset "Cornfield" 50 false (colors_of []).
Proof.
  unfold readable. do 5 (split; [vm_compute; reflexivity|]).
  unfold mandatory_colors.
  repeat first
    [ apply List.Forall_nil
    | apply List.Forall_cons; [vm_compute; eexists; reflexivity|] ].
Qed.

Lemma X12_witness :
  complete (_color_scheme (RenderColorScheme_from "sunset.json")) ∧
  _error (RenderColorScheme_from "sunset.json") = "".
Proof.
  apply (X12_valid_scheme_is_complete "sunset.json"). vm_compute. reflexivity.
Defined.

Lemma X13_witness :
  let cs := _color_scheme (RenderColorScheme_from "sunset.json") in
  (∀ rc key, (rc, key) ∈ mandatory_colors →
             cs !! rc = color_at (P := platform) (colors_of []) key) ∧
  cs !! BACKGROUND_STOP_COLOR
  = match color_at (P := platform) (colors_of []) "background-stop" with
    | Some c => Some c
    | None => cs !! BACKGROUND_COLOR
    end.
Proof.
  apply (X13_colours_of_a_readable_file (P := platform)
           "sunset.json" sunset "Cornfield" 50 false (colors_of [])).
  exact sunset_readable.
Defined.

Lemma broken_unreadable :
  ∀ t n i g colors, ¬ readable "broken.json" t n i g colors.
Proof.
  intros t n i g colors (Hjson & _ & _ & _ & Hcolors & Hall).
  vm_compute in Hjson. injection Hjson as <-.
  vm_compute in Hcolors. injection Hcolors as <-.
  rewrite Forall_forall in Hall.
  destruct (Hall (CROSSHAIR_COLOR, "crosshair")) as [c Hc].
  - unfold mandatory_colors. repeat constructor.
  - vm_compute in Hc. discriminate.
Qed.

Lemma X15_witness :
  let s := RenderColorScheme_from "broken.json" in
  _name s = "" ∧ _index s = 0 ∧ _show_in_gui s = false ∧ valid s = false.
Proof.
  apply (X15_unreadable_file_resets_the_scheme "broken.json").
  exact broken_unreadable.
Defined.

End ColorMapFacts.
